(** * Reference-counted checkpoint storage (arb-avm-cpp)

    A shallow embedding of [avm/src/checkpoint/checkpointstorage.cpp]:
    the record format that packs a 32-bit reference count in front of a
    value, and the get / save / increment / delete protocol that
    [CheckpointStorage] runs on top of a transactional key-value engine. *)

From Stdlib Require Import ZArith Lia.
From Stdlib Require Import Strings.Byte.
From stdpp Require Import base option list countable gmap fin_maps.

Local Open Scope Z_scope.

(** ** Bytes and 32-bit unsigned integers *)

(** [unsigned char] is [Byte.byte]; a [std::vector<unsigned char>] and the
    contents of a [std::string] are both [list byte]. *)
Abbreviation bytes := (list byte).

Definition Z_of_byte (b : byte) : Z := Z.of_N (Byte.to_N b).

Definition byte_of_Z (z : Z) : byte :=
  match Byte.of_N (Z.to_N (z mod 256)) with
  | Some b => b
  | None => x00
  end.

#[global] Instance byte_eq_dec : EqDecision byte := Byte.byte_eq_dec.

#[global] Program Instance byte_countable : Countable byte :=
  inj_countable Byte.to_N Byte.of_N _.
Next Obligation. intros b. apply Byte.of_to_N. Qed.

(** [uint32_t]: a [Z] in [[0, 2^32)]; arithmetic wraps. *)
Definition UINT32_MAX : Z := 2 ^ 32 - 1.
Definition u32 (z : Z) : Z := z mod 2 ^ 32.

(** Conversion of a [uint32_t] to [int] (two's complement, 32 bits). *)
Definition int_of_u32 (z : Z) : Z := if z <? 2 ^ 31 then z else z - 2 ^ 32.

(** [memcpy] between a [uint32_t] and 4 bytes, on a little-endian host:
    the least significant byte comes first. *)
Fixpoint le_split (n : nat) (z : Z) : bytes :=
  match n with
  | O => []
  | S n' => byte_of_Z z :: le_split n' (Z.shiftr z 8)
  end.

Fixpoint le_combine (bs : bytes) : Z :=
  match bs with
  | [] => 0
  | b :: bs' => Z.lor (Z_of_byte b) (Z.shiftl (le_combine bs') 8)
  end.

(** ** Outcomes of a call

    A call either returns, or stops the process at a failed [assert], or
    runs into behaviour the language leaves undefined (an iterator range
    that ends before it starts). *)
Inductive exec (A : Type) : Type :=
| Done (a : A)
| AssertionFailed
| UndefinedBehaviour.
Arguments Done {A} a.
Arguments AssertionFailed {A}.
Arguments UndefinedBehaviour {A}.

Definition exec_bind {A B} (m : exec A) (f : A -> exec B) : exec B :=
  match m with
  | Done a => f a
  | AssertionFailed => AssertionFailed
  | UndefinedBehaviour => UndefinedBehaviour
  end.

Notation "x <-- m ;; k" := (exec_bind m (fun x => k))
  (at level 100, m at next level, right associativity, only parsing).

(** [assert(c)] *)
Definition assert (c : bool) : exec unit :=
  if c then Done tt else AssertionFailed.

(** ** The record format *)

(** [parseCountAndValue]: an empty string is count 0 with an empty value;
    otherwise the first [sizeof(uint32_t)] bytes are the count and the
    rest is the value. For a string of 1 to 3 bytes the iterator
    [begin() + 4] lies behind [end()]: the source has no defined result. *)
Definition parseCountAndValue (string_value : bytes) : exec (Z * bytes) :=
  if decide (string_value = []) then Done (0, [])
  else if decide (length string_value < 4)%nat then UndefinedBehaviour
  else
    let ref_count := le_combine (take 4 string_value) in
    let saved_value := drop 4 string_value in
    Done (ref_count, saved_value).

(** [serializeCountAndValue]: 4 bytes holding [count], then [value]. *)
Definition serializeCountAndValue (count : Z) (value : bytes) : bytes :=
  let output_vector := le_split 4 count in
  output_vector ++ value.

(** ** The transactional engine

    RocksDB is not part of the repository. [Status] keeps the code of a
    [rocksdb::Status] ([ok()] and [==] look at nothing else). *)
Inductive Status : Set :=
| OK | NotFound | Corruption | NotSupported | InvalidArgument | IOError
| MergeInProgress | Incomplete | ShutdownInProgress | TimedOut | Aborted
| Busy | Expired | TryAgain.

#[global] Instance Status_eq_dec : EqDecision Status.
Proof. solve_decision. Defined.

(** [Status::ok()] *)
Definition ok (s : Status) : bool :=
  match s with OK => true | _ => false end.

(** The engine is a finite map from keys to stored strings, together with
    the status it answers reads, buffered writes and commits with while
    it is failing ([OK]: that path works). *)
Record TransactionDB : Type := {
  table : gmap bytes bytes;
  get_fault : Status;
  write_fault : Status;
  commit_fault : Status;
}.

Definition with_table (db : TransactionDB) (t : gmap bytes bytes) : TransactionDB :=
  {| table := t; get_fault := get_fault db;
     write_fault := write_fault db; commit_fault := commit_fault db |}.

Definition healthy (db : TransactionDB) : Prop :=
  get_fault db = OK /\ write_fault db = OK /\ commit_fault db = OK.

#[global] Instance healthy_dec db : Decision (healthy db).
Proof. unfold healthy. apply _. Defined.

(** [txn_db->Get(read_options, key_str, &return_value)] *)
Definition Get (db : TransactionDB) (key_str : bytes) : Status * bytes :=
  if ok (get_fault db) then
    match table db !! key_str with
    | Some return_value => (OK, return_value)
    | None => (NotFound, [])
    end
  else (get_fault db, []).

(** A [rocksdb::Transaction]: the database it was begun on and the
    single-key writes it has buffered, oldest first. *)
Inductive BufferedWrite : Type :=
| WPut (key_str value_str : bytes)
| WDelete (key_str : bytes).

Record RocksTransaction : Type := {
  txn_base : TransactionDB;
  txn_writes : list BufferedWrite;
}.

(** [txn_db->BeginTransaction(writeOptions)]; [None] is [nullptr]. *)
Definition BeginTransaction (db : TransactionDB) : option RocksTransaction :=
  Some {| txn_base := db; txn_writes := [] |}.

Definition buffer (t : RocksTransaction) (w : BufferedWrite) : Status * RocksTransaction :=
  if ok (write_fault (txn_base t)) then
    (OK, {| txn_base := txn_base t; txn_writes := txn_writes t ++ [w] |})
  else (write_fault (txn_base t), t).

(** [transaction->Put(key_str, value_str)] *)
Definition Put (t : RocksTransaction) (key_str value_str : bytes) :=
  buffer t (WPut key_str value_str).

(** [transaction->Delete(key_str)] *)
Definition Delete (t : RocksTransaction) (key_str : bytes) :=
  buffer t (WDelete key_str).

Definition apply_write (m : gmap bytes bytes) (w : BufferedWrite) : gmap bytes bytes :=
  match w with
  | WPut k v => <[k := v]> m
  | WDelete k => delete k m
  end.

(** [transaction->Commit()]: all buffered writes, or none. *)
Definition Commit (t : RocksTransaction) : Status * TransactionDB :=
  let db := txn_base t in
  if ok (commit_fault db) then
    (OK, with_table db (foldl apply_write (table db) (txn_writes t)))
  else (commit_fault db, db).

(** ** Results of the store's operations *)

(** Modelled from the spec: the structs [GetResults], [SaveResults] and
    [DeleteResults] are declared in [avm/checkpoint/checkpointstorage.hpp],
    which is not among the sources. The fields of [GetResults] are the
    ones the source reads; the others follow the order of the brace
    initialisers, count first and status second. *)
Record GetResults : Type := {
  reference_count : Z;
  status : Status;
  stored_value : bytes;
}.

Record SaveResults : Type := {
  save_reference_count : Z;
  save_status : Status;
  storage_key : bytes;
}.

Record DeleteResults : Type := {
  del_reference_count : Z;
  del_status : Status;
}.

(** ** CheckpointStorage *)

(** [CheckpointStorage::getValue] *)
Definition getValue (db : TransactionDB) (hash_key : bytes) : exec GetResults :=
  let '(get_status, return_value) := Get db hash_key in
  if ok get_status then
    tuple <-- parseCountAndValue return_value ;;
    let stored_val := snd tuple in
    let ref_count := fst tuple in
    Done {| reference_count := ref_count; status := get_status;
            stored_value := stored_val |}
  else
    let unsuccessful := NotFound in
    Done {| reference_count := 0; status := unsuccessful; stored_value := [] |}.

(** [CheckpointStorage::makeTransaction] *)
Definition makeTransaction (db : TransactionDB) : option RocksTransaction :=
  BeginTransaction db.

(** [CheckpointStorage::saveKeyValuePair] *)
Definition saveKeyValuePair (db : TransactionDB) (key value : bytes)
  : exec (Status * TransactionDB) :=
  match makeTransaction db with
  | None => AssertionFailed
  | Some transaction =>
      let '(put_status, transaction) := Put transaction key value in
      _ <-- assert (ok put_status) ;;
      let '(commit_status, db') := Commit transaction in
      _ <-- assert (ok commit_status) ;;
      Done (commit_status, db')
  end.

(** [CheckpointStorage::deleteKeyValuePair] *)
Definition deleteKeyValuePair (db : TransactionDB) (key : bytes)
  : exec (Status * TransactionDB) :=
  match makeTransaction db with
  | None => AssertionFailed
  | Some transaction =>
      let '(delete_status, transaction) := Delete transaction key in
      _ <-- assert (ok delete_status) ;;
      let '(commit_status, db') := Commit transaction in
      _ <-- assert (ok commit_status) ;;
      Done (commit_status, db')
  end.

(** [CheckpointStorage::saveValueWithRefCount]; the parameter is a
    [uint32_t], callers convert. *)
Definition saveValueWithRefCount (db : TransactionDB) (updated_ref_count : Z)
    (hash_key value : bytes) : exec (SaveResults * TransactionDB) :=
  let updated_entry := serializeCountAndValue updated_ref_count value in
  r <-- saveKeyValuePair db hash_key updated_entry ;;
  let '(status, db') := r in
  if ok status then
    Done ({| save_reference_count := updated_ref_count; save_status := status;
             storage_key := hash_key |}, db')
  else
    Done ({| save_reference_count := 0; save_status := status;
             storage_key := hash_key |}, db').

(** [CheckpointStorage::incrementReference] *)
Definition incrementReference (db : TransactionDB) (hash_key : bytes)
  : exec (SaveResults * TransactionDB) :=
  results <-- getValue db hash_key ;;
  if ok (status results) then
    let updated_count := u32 (reference_count results + 1) in
    saveValueWithRefCount db updated_count hash_key (stored_value results)
  else
    Done ({| save_reference_count := 0; save_status := status results;
             storage_key := hash_key |}, db).

(** [CheckpointStorage::saveValue]; [ref_count] is an [int], converted to
    [uint32_t] at the call. *)
Definition saveValue (db : TransactionDB) (hash_key value : bytes)
  : exec (SaveResults * TransactionDB) :=
  results <-- getValue db hash_key ;;
  ref_count <--
    (if ok (status results) then
       _ <-- assert (bool_decide (stored_value results = value)) ;;
       Done (int_of_u32 (u32 (reference_count results + 1)))
     else Done 1) ;;
  saveValueWithRefCount db (u32 ref_count) hash_key value.

(** [CheckpointStorage::deleteValue] *)
Definition deleteValue (db : TransactionDB) (hash_key : bytes)
  : exec (DeleteResults * TransactionDB) :=
  results <-- getValue db hash_key ;;
  if ok (status results) then
    if reference_count results <? 2 then
      r <-- deleteKeyValuePair db hash_key ;;
      let '(delete_status, db') := r in
      Done ({| del_reference_count := 0; del_status := delete_status |}, db')
    else
      let updated_ref_count := u32 (reference_count results - 1) in
      r <-- saveValueWithRefCount db updated_ref_count hash_key
              (stored_value results) ;;
      let '(update_result, db') := r in
      Done ({| del_reference_count := updated_ref_count;
               del_status := save_status update_result |}, db')
  else
    Done ({| del_reference_count := 0; del_status := status results |}, db).

(** ** Sequences of operations *)

Inductive Op : Type :=
| OpSave (hash_key value : bytes)
| OpIncrement (hash_key : bytes)
| OpDelete (hash_key : bytes).

Definition run_op (db : TransactionDB) (op : Op) : exec TransactionDB :=
  match op with
  | OpSave k v => r <-- saveValue db k v ;; Done (snd r)
  | OpIncrement k => r <-- incrementReference db k ;; Done (snd r)
  | OpDelete k => r <-- deleteValue db k ;; Done (snd r)
  end.

(** An increment (by [saveValue] or [incrementReference]) of a count that
    stands at [UINT32_MAX]. *)
Definition wraps (db : TransactionDB) (op : Op) : bool :=
  match op with
  | OpSave k _ | OpIncrement k =>
      match getValue db k with
      | Done r => ok (status r) && (reference_count r =? UINT32_MAX)
      | _ => false
      end
  | OpDelete _ => false
  end.

(** States of a store opened on a fresh path, after any number of calls
    that returned; [allowed] restricts the calls taken into account. *)
Inductive reachable (allowed : TransactionDB -> Op -> Prop) : TransactionDB -> Prop :=
| reachable_open db : table db = ∅ -> reachable allowed db
| reachable_step db op db' :
    reachable allowed db -> allowed db op -> run_op db op = Done db' ->
    reachable allowed db'.

Definition any_call : TransactionDB -> Op -> Prop := fun _ _ => True.
Definition no_wrap : TransactionDB -> Op -> Prop := fun db op => wraps db op = false.

(** [saveValue(k, v)] called [n] times in a row. *)
Definition save_times (n : N) (db : TransactionDB) (k v : bytes) : exec TransactionDB :=
  N.iter n (fun m => db' <-- m ;; run_op db' (OpSave k v)) (Done db).

(** [deleteValue(k)] called [n] times in a row. *)
Definition delete_times (n : N) (db : TransactionDB) (k : bytes) : exec TransactionDB :=
  N.iter n (fun m => db' <-- m ;; run_op db' (OpDelete k)) (Done db).

(** The key a call works on. *)
Definition key_of (op : Op) : bytes :=
  match op with
  | OpSave k _ | OpIncrement k | OpDelete k => k
  end.

(** Every record is a count in front of a value: 4 bytes at least. *)
Definition records_well_formed (t : gmap bytes bytes) : Prop :=
  forall k s, t !! k = Some s ->
    exists c v, s = serializeCountAndValue c v /\ 0 <= c < 2 ^ 32.

(** ** The invariant of the record table *)

(** The reference count of the record the engine holds for [k], decoded as
    the source decodes it; 0 when the engine holds none. *)
Definition record_count (db : TransactionDB) (k : bytes) : exec Z :=
  match table db !! k with
  | None => Done 0
  | Some s => tuple <-- parseCountAndValue s ;; Done tuple.1
  end.

(** A record exists if and only if its reference count is at least 1. *)
Definition record_iff_counted (db : TransactionDB) : Prop :=
  forall k, exists c,
    record_count db k = Done c /\ (is_Some (table db !! k) <-> 1 <= c).

(** Every record is a serialized pair whose count is at least 1. *)
Definition counts_positive (t : gmap bytes bytes) : Prop :=
  forall k s, t !! k = Some s ->
    exists c v, s = serializeCountAndValue c v /\ 1 <= c < 2 ^ 32.

(** ** Concrete stores used in the examples *)

Definition fresh_db : TransactionDB :=
  {| table := ∅; get_fault := OK; write_fault := OK; commit_fault := OK |}.

(** A store whose engine answers every read with an I/O error. *)
Definition io_error_db : TransactionDB :=
  {| table := ∅; get_fault := IOError; write_fault := OK; commit_fault := OK |}.

Definition key_abc : bytes := [x61; x62; x63].
Definition value_123 : bytes := [x01; x02; x03].

(** The store holding [value_123] under [key_abc] with count [n]. *)
Definition db_abc (n : Z) : TransactionDB :=
  with_table fresh_db {[ key_abc := serializeCountAndValue n value_123 ]}.

(** The same store on an engine whose reads fail with an I/O error. *)
Definition db_abc_unreadable (n : Z) : TransactionDB :=
  {| table := table (db_abc n); get_fault := IOError;
     write_fault := OK; commit_fault := OK |}.

(** The same store on an engine whose commits fail with an I/O error. *)
Definition db_abc_unwritable (n : Z) : TransactionDB :=
  {| table := table (db_abc n); get_fault := OK;
     write_fault := OK; commit_fault := IOError |}.

(** A healthy store holding the raw string [s] under [key_abc], as another
    writer to the same database could leave it. *)
Definition db_abc_raw (s : bytes) : TransactionDB :=
  with_table fresh_db {[ key_abc := s ]}.

(** ** Round trip of the count through its 4 bytes *)

Lemma Z_of_byte_range b : 0 <= Z_of_byte b < 256.
Proof.
  unfold Z_of_byte. pose proof (Byte.to_N_bounded b). lia.
Qed.

Lemma Z_of_byte_of_Z z : Z_of_byte (byte_of_Z z) = z mod 256.
Proof.
  unfold Z_of_byte, byte_of_Z.
  assert (Hr : 0 <= z mod 256 < 256) by (apply Z.mod_pos_bound; lia).
  destruct (Byte.of_N (Z.to_N (z mod 256))) as [b|] eqn:E.
  - apply Byte.to_of_N in E. rewrite E. lia.
  - apply Byte.of_N_None_iff in E. lia.
Qed.

Lemma byte_of_Z_of_byte b : byte_of_Z (Z_of_byte b) = b.
Proof.
  unfold byte_of_Z. pose proof (Z_of_byte_range b) as Hr.
  rewrite Z.mod_small by lia. unfold Z_of_byte.
  rewrite N2Z.id, Byte.of_to_N. reflexivity.
Qed.

Lemma length_le_split n z : length (le_split n z) = n.
Proof. revert z. induction n as [|n IH]; intros z; simpl; [done|]. by rewrite IH. Qed.

Lemma low_byte_lor_shift z m :
  0 <= m ->
  Z.lor (z mod 256) (Z.shiftl (Z.shiftr z 8 mod 2 ^ m) 8) = z mod 2 ^ (8 + m).
Proof.
  intros Hm. apply Z.bits_inj'. intros i Hi.
  change 256 with (2 ^ 8).
  rewrite Z.lor_spec, !Z.testbit_mod_pow2 by lia.
  rewrite Z.shiftl_spec by lia.
  destruct (Z.ltb_spec i 8) as [Hlt|Hge].
  - rewrite (Z.testbit_neg_r _ (i - 8)) by lia.
    rewrite orb_false_r.
    destruct (Z.ltb_spec i (8 + m)); [reflexivity | lia].
  - cbn [andb orb]. rewrite Z.testbit_mod_pow2 by lia.
    rewrite Z.shiftr_spec by lia.
    replace (i - 8 + 8) with i by lia.
    destruct (Z.ltb_spec (i - 8) m), (Z.ltb_spec i (8 + m)); try lia; reflexivity.
Qed.

Lemma le_combine_split n z :
  le_combine (le_split n z) = z mod 2 ^ (8 * Z.of_nat n).
Proof.
  revert z. induction n as [|n IH]; intros z.
  - simpl. by rewrite Z.mod_1_r.
  - cbn [le_split le_combine]. rewrite Z_of_byte_of_Z, IH.
    rewrite low_byte_lor_shift by lia. f_equal. f_equal. lia.
Qed.

Lemma parse_serialize count value :
  parseCountAndValue (serializeCountAndValue count value)
  = Done (u32 count, value).
Proof.
  unfold parseCountAndValue, serializeCountAndValue.
  rewrite decide_False by (by destruct value).
  rewrite decide_False by (rewrite length_app, length_le_split; lia).
  rewrite take_app_length' by (by rewrite length_le_split).
  rewrite drop_app_length' by (by rewrite length_le_split).
  rewrite le_combine_split. reflexivity.
Qed.

(** C4: for every count in [0, 2^32 - 1] and every value (the empty one
    included), parsing the serialized pair gives the pair back. *)
Theorem C4_parse_serialize_roundtrip (count : Z) (value : bytes) :
  0 <= count <= 2 ^ 32 - 1 ->
  parseCountAndValue (serializeCountAndValue count value) = Done (count, value).
Proof.
  intros Hc. rewrite parse_serialize. unfold u32.
  rewrite Z.mod_small by lia. reflexivity.
Qed.

Lemma C4_parse_serialize_roundtrip_witness :
  parseCountAndValue (serializeCountAndValue 4294967295 [])
  = Done (4294967295, []).
Proof. apply C4_parse_serialize_roundtrip. lia. Defined.

Lemma le_combine_mod bs :
  le_combine bs mod 2 ^ (8 * Z.of_nat (length bs)) = le_combine bs.
Proof.
  induction bs as [|b bs IH].
  - reflexivity.
  - cbn [le_combine length]. apply Z.bits_inj'. intros i Hi.
    rewrite Z.testbit_mod_pow2 by lia.
    destruct (Z.ltb_spec i (8 * Z.of_nat (S (length bs)))) as [|Hge]; [done|].
    cbn [andb]. rewrite Z.lor_spec, Z.shiftl_spec by lia.
    rewrite <- (Z.mod_small (Z_of_byte b) (2 ^ 8)) by apply Z_of_byte_range.
    rewrite <- IH.
    rewrite !Z.testbit_mod_pow2 by lia.
    destruct (Z.ltb_spec i 8), (Z.ltb_spec (i - 8) (8 * Z.of_nat (length bs)));
      try lia; reflexivity.
Qed.

Lemma le_combine_bound bs :
  0 <= le_combine bs < 2 ^ (8 * Z.of_nat (length bs)).
Proof.
  rewrite <- le_combine_mod. apply Z.mod_pos_bound.
  apply Z.pow_pos_nonneg; lia.
Qed.

Lemma parse_count_range s c v :
  parseCountAndValue s = Done (c, v) -> 0 <= c < 2 ^ 32.
Proof.
  unfold parseCountAndValue. repeat case_decide; intros [= <- <-]; [lia|].
  pose proof (le_combine_bound (take 4 s)) as Hb.
  rewrite length_take, Nat.min_l in Hb by lia. exact Hb.
Qed.

(** ** What the engine does while it works *)

Lemma ok_true s : ok s = true <-> s = OK.
Proof. by destruct s. Qed.

Lemma Get_status_not_found db k :
  table db !! k = None -> ok (Get db k).1 = false.
Proof.
  intros Hk. unfold Get. destruct (ok (get_fault db)) eqn:E; [by rewrite Hk|done].
Qed.

Lemma getValue_read_failed db k :
  ok (Get db k).1 = false ->
  getValue db k
  = Done {| reference_count := 0; status := NotFound; stored_value := [] |}.
Proof.
  unfold getValue. destruct (Get db k) as [st rv]. cbn [fst]. by intros ->.
Qed.

Lemma getValue_absent db k :
  table db !! k = None ->
  getValue db k
  = Done {| reference_count := 0; status := NotFound; stored_value := [] |}.
Proof. intros Hk. by apply getValue_read_failed, Get_status_not_found. Qed.

Lemma getValue_present db k s :
  get_fault db = OK -> table db !! k = Some s ->
  getValue db k
  = (tuple <-- parseCountAndValue s ;;
     Done {| reference_count := tuple.1; status := OK; stored_value := tuple.2 |}).
Proof.
  intros Hg Hk. unfold getValue, Get. rewrite Hg, Hk. reflexivity.
Qed.

Lemma getValue_ok_inv db k c v :
  getValue db k = Done {| reference_count := c; status := OK; stored_value := v |} ->
  get_fault db = OK /\
  exists s, table db !! k = Some s /\ parseCountAndValue s = Done (c, v).
Proof.
  unfold getValue, Get.
  destruct (ok (get_fault db)) eqn:Hf.
  - apply ok_true in Hf. destruct (table db !! k) as [s|] eqn:Hk; cbn.
    + intros H. split; [done|]. exists s. split; [done|].
      destruct (parseCountAndValue s) as [[c' v']| |]; cbn in H; [|done..].
      by injection H as -> ->.
    + discriminate.
  - cbn. rewrite Hf. discriminate.
Qed.

Lemma saveKeyValuePair_healthy db key value :
  write_fault db = OK -> commit_fault db = OK ->
  saveKeyValuePair db key value
  = Done (OK, with_table db (<[key := value]> (table db))).
Proof.
  intros Hw Hc. unfold saveKeyValuePair, makeTransaction, BeginTransaction,
    Put, buffer, Commit. cbn. rewrite Hw. cbn. rewrite Hc. reflexivity.
Qed.

Lemma deleteKeyValuePair_healthy db key :
  write_fault db = OK -> commit_fault db = OK ->
  deleteKeyValuePair db key = Done (OK, with_table db (delete key (table db))).
Proof.
  intros Hw Hc. unfold deleteKeyValuePair, makeTransaction, BeginTransaction,
    Delete, buffer, Commit. cbn. rewrite Hw. cbn. rewrite Hc. reflexivity.
Qed.

Lemma saveValueWithRefCount_healthy db n key value :
  write_fault db = OK -> commit_fault db = OK ->
  saveValueWithRefCount db n key value
  = Done ({| save_reference_count := n; save_status := OK; storage_key := key |},
          with_table db (<[key := serializeCountAndValue n value]> (table db))).
Proof.
  intros Hw Hc. unfold saveValueWithRefCount.
  rewrite saveKeyValuePair_healthy by done. reflexivity.
Qed.

Lemma getValue_after_put db key n value t :
  get_fault db = OK ->
  t !! key = Some (serializeCountAndValue n value) ->
  getValue (with_table db t) key
  = Done {| reference_count := u32 n; status := OK; stored_value := value |}.
Proof.
  intros Hg Hk.
  rewrite (getValue_present (with_table db t) key _ Hg Hk), parse_serialize.
  reflexivity.
Qed.

Lemma u32_int_of_u32 z : 0 <= z < 2 ^ 32 -> u32 (int_of_u32 z) = z.
Proof.
  intros Hz. unfold u32, int_of_u32. destruct (Z.ltb_spec z (2 ^ 31)).
  - apply Z.mod_small. lia.
  - replace (z - 2 ^ 32) with (z + -1 * 2 ^ 32) by lia.
    rewrite Z_mod_plus_full. apply Z.mod_small. lia.
Qed.

Lemma u32_range z : 0 <= u32 z < 2 ^ 32.
Proof. apply Z.mod_pos_bound. lia. Qed.

(** ** Examples of the record format and of a run *)

Example serialize_count_2 :
  serializeCountAndValue 2 value_123 = [x02; x00; x00; x00; x01; x02; x03].
Proof. reflexivity. Qed.

Example parse_empty : parseCountAndValue [] = Done (0, []).
Proof. reflexivity. Qed.

Example parse_short : parseCountAndValue [x01; x00] = UndefinedBehaviour.
Proof. reflexivity. Qed.

(** Save, increment twice, delete three times: the counts reported are
    1, 2, 3, 2, 1, 0; the value read after the first delete is the one
    saved; the last read finds nothing. *)
Example save_increment_delete_run :
  (s1 <-- saveValue fresh_db key_abc value_123 ;;
   s2 <-- incrementReference s1.2 key_abc ;;
   s3 <-- incrementReference s2.2 key_abc ;;
   d1 <-- deleteValue s3.2 key_abc ;;
   g1 <-- getValue d1.2 key_abc ;;
   d2 <-- deleteValue d1.2 key_abc ;;
   d3 <-- deleteValue d2.2 key_abc ;;
   g2 <-- getValue d3.2 key_abc ;;
   Done ([save_reference_count s1.1; save_reference_count s2.1;
          save_reference_count s3.1; del_reference_count d1.1;
          del_reference_count d2.1; del_reference_count d3.1],
         stored_value g1, status g2, table d3.2))
  = Done ([1; 2; 3; 2; 1; 0], value_123, NotFound, ∅).
Proof. reflexivity. Qed.

(** ** Reading *)

(** C8: for a key without a record, [getValue] returns (it does not fail)
    with status NotFound, reference count 0 and an empty value. *)
Theorem C8_getValue_absent_not_found (db : TransactionDB) (k : bytes) :
  table db !! k = None ->
  getValue db k
  = Done {| reference_count := 0; status := NotFound; stored_value := [] |}.
Proof. apply getValue_absent. Qed.

Lemma C8_getValue_absent_not_found_witness :
  getValue fresh_db key_abc
  = Done {| reference_count := 0; status := NotFound; stored_value := [] |}.
Proof. apply C8_getValue_absent_not_found. reflexivity. Defined.

(** C2, as stated: whenever the engine's read fails, [getValue] returns the
    engine's status. It does not: on an I/O error the caller is handed
    NotFound. *)
Lemma C2_counterexample :
  (Get io_error_db key_abc).1 = IOError /\
  ok (Get io_error_db key_abc).1 = false /\
  ~ (exists r, getValue io_error_db key_abc = Done r /\
               status r = (Get io_error_db key_abc).1).
Proof.
  split; [reflexivity|]. split; [reflexivity|].
  intros (r & Hr & Hs). cbv in Hr. injection Hr as <-. discriminate Hs.
Qed.

(** C2, amended: whenever the engine's read fails, with whatever status,
    [getValue] returns status NotFound with count 0 and an empty value; the
    status it returns is the engine's own exactly when that was NotFound. *)
Theorem C2_getValue_failed_read_is_not_found (db : TransactionDB) (k : bytes) :
  ok (Get db k).1 = false ->
  getValue db k
  = Done {| reference_count := 0; status := NotFound; stored_value := [] |}
  /\ (forall r, getValue db k = Done r ->
        (status r = (Get db k).1 <-> (Get db k).1 = NotFound)).
Proof.
  intros Hf. pose proof (getValue_read_failed db k Hf) as Hg.
  split; [exact Hg|]. intros r Hr. rewrite Hg in Hr. injection Hr as <-.
  cbn. split; congruence.
Qed.

Lemma C2_getValue_failed_read_is_not_found_witness :
  getValue io_error_db key_abc
  = Done {| reference_count := 0; status := NotFound; stored_value := [] |}
  /\ (forall r, getValue io_error_db key_abc = Done r ->
        (status r = (Get io_error_db key_abc).1
         <-> (Get io_error_db key_abc).1 = NotFound)).
Proof. apply C2_getValue_failed_read_is_not_found. reflexivity. Defined.

(** ** Incrementing *)

(** C7: for a key without a record, [incrementReference] returns status
    NotFound with count 0, and the store is the one it started from. *)
Theorem C7_incrementReference_absent (db : TransactionDB) (k : bytes) :
  table db !! k = None ->
  incrementReference db k
  = Done ({| save_reference_count := 0; save_status := NotFound;
             storage_key := k |}, db).
Proof.
  intros Hk. unfold incrementReference. rewrite getValue_absent by done.
  reflexivity.
Qed.

Lemma C7_incrementReference_absent_witness :
  incrementReference fresh_db key_abc
  = Done ({| save_reference_count := 0; save_status := NotFound;
             storage_key := key_abc |}, fresh_db).
Proof. apply C7_incrementReference_absent. reflexivity. Defined.

Lemma incrementReference_present db k c v :
  write_fault db = OK -> commit_fault db = OK ->
  getValue db k = Done {| reference_count := c; status := OK; stored_value := v |} ->
  incrementReference db k
  = Done ({| save_reference_count := u32 (c + 1); save_status := OK;
             storage_key := k |},
          with_table db (<[k := serializeCountAndValue (u32 (c + 1)) v]> (table db))).
Proof.
  intros Hw Hc Hg. unfold incrementReference. rewrite Hg. cbn.
  by apply saveValueWithRefCount_healthy.
Qed.

(** ** Saving *)

Lemma saveValue_absent db k v :
  write_fault db = OK -> commit_fault db = OK ->
  table db !! k = None ->
  saveValue db k v
  = Done ({| save_reference_count := 1; save_status := OK; storage_key := k |},
          with_table db (<[k := serializeCountAndValue 1 v]> (table db))).
Proof.
  intros Hw Hc Hk. unfold saveValue. rewrite getValue_absent by done. cbn.
  by apply saveValueWithRefCount_healthy.
Qed.

Lemma saveValue_present db k c v w :
  write_fault db = OK -> commit_fault db = OK ->
  getValue db k = Done {| reference_count := c; status := OK; stored_value := v |} ->
  saveValue db k w
  = if decide (v = w) then
      Done ({| save_reference_count := u32 (c + 1); save_status := OK;
               storage_key := k |},
            with_table db (<[k := serializeCountAndValue (u32 (c + 1)) w]> (table db)))
    else AssertionFailed.
Proof.
  intros Hw Hc Hg. unfold saveValue. rewrite Hg. cbn.
  case_decide as Hv.
  - rewrite bool_decide_eq_true_2 by done. cbn.
    rewrite u32_int_of_u32 by apply u32_range.
    by apply saveValueWithRefCount_healthy.
  - by rewrite bool_decide_eq_false_2.
Qed.

(** C9: on a key whose record stores [v], [saveValue] with a value equal to
    [v] passes the assertion and writes the record back with the count
    incremented (as a [uint32_t]; that is [c + 1] below [UINT32_MAX]); with
    any other value the assertion fails; so a caller that supplies the
    stored value never reaches the failure. *)
Theorem C9_saveValue_content_address_assert (db : TransactionDB)
    (k v : bytes) (c : Z) :
  write_fault db = OK -> commit_fault db = OK ->
  getValue db k = Done {| reference_count := c; status := OK; stored_value := v |} ->
  (forall w, w = v ->
     saveValue db k w
     = Done ({| save_reference_count := u32 (c + 1); save_status := OK;
                storage_key := k |},
             with_table db (<[k := serializeCountAndValue (u32 (c + 1)) v]> (table db))))
  /\ (c < UINT32_MAX -> u32 (c + 1) = c + 1)
  /\ (forall w, w <> v -> saveValue db k w = AssertionFailed)
  /\ (forall w, saveValue db k w = AssertionFailed -> w <> v).
Proof.
  intros Hw Hc Hg.
  assert (Hsave := fun w => saveValue_present db k c v w Hw Hc Hg).
  split; [|split; [|split]].
  - intros w ->. rewrite Hsave. by rewrite decide_True.
  - intros Hlt. apply getValue_ok_inv in Hg as (_ & s & _ & Hp).
    apply parse_count_range in Hp. unfold u32, UINT32_MAX in *.
    apply Z.mod_small. lia.
  - intros w Hne. rewrite Hsave. by rewrite decide_False.
  - intros w. rewrite Hsave. case_decide; [discriminate|]. congruence.
Qed.

Lemma C9_saveValue_content_address_assert_witness :
  (forall w, w = value_123 ->
     saveValue (db_abc 1) key_abc w
     = Done ({| save_reference_count := u32 (1 + 1); save_status := OK;
                storage_key := key_abc |},
             with_table (db_abc 1)
               (<[key_abc := serializeCountAndValue (u32 (1 + 1)) value_123]>
                  (table (db_abc 1)))))
  /\ (1 < UINT32_MAX -> u32 (1 + 1) = 1 + 1)
  /\ (forall w, w <> value_123 -> saveValue (db_abc 1) key_abc w = AssertionFailed)
  /\ (forall w, saveValue (db_abc 1) key_abc w = AssertionFailed -> w <> value_123).
Proof.
  apply (C9_saveValue_content_address_assert (db_abc 1) key_abc value_123 1);
    reflexivity.
Defined.

(** C10: when the record of [k] has count [2^32 - 1], [incrementReference]
    and [saveValue] with the stored value both return, report count 0 and
    leave a record whose 4 count bytes are zero in front of the value. *)
Theorem C10_increment_wraps_at_uint32_max (db : TransactionDB) (k v : bytes) :
  write_fault db = OK -> commit_fault db = OK ->
  getValue db k
  = Done {| reference_count := 2 ^ 32 - 1; status := OK; stored_value := v |} ->
  let db' := with_table db (<[k := [x00; x00; x00; x00] ++ v]> (table db)) in
  incrementReference db k
  = Done ({| save_reference_count := 0; save_status := OK; storage_key := k |}, db')
  /\ saveValue db k v
  = Done ({| save_reference_count := 0; save_status := OK; storage_key := k |}, db')
  /\ getValue db' k
  = Done {| reference_count := 0; status := OK; stored_value := v |}.
Proof.
  intros Hw Hc Hg db'.
  assert (Hz : u32 (2 ^ 32 - 1 + 1) = 0) by reflexivity.
  assert (Hs : serializeCountAndValue 0 v = [x00; x00; x00; x00] ++ v) by reflexivity.
  split; [|split].
  - rewrite (incrementReference_present db k _ v Hw Hc Hg), Hz, Hs. reflexivity.
  - rewrite (saveValue_present db k _ v v Hw Hc Hg), decide_True, Hz, Hs by done.
    reflexivity.
  - apply getValue_ok_inv in Hg as (Hgf & _).
    unfold db'. rewrite <- Hs.
    rewrite (getValue_after_put db k 0 v) by (done || apply lookup_insert_eq).
    reflexivity.
Qed.

Lemma C10_increment_wraps_at_uint32_max_witness :
  let db' := with_table (db_abc (2 ^ 32 - 1))
               (<[key_abc := [x00; x00; x00; x00] ++ value_123]>
                  (table (db_abc (2 ^ 32 - 1)))) in
  incrementReference (db_abc (2 ^ 32 - 1)) key_abc
  = Done ({| save_reference_count := 0; save_status := OK;
             storage_key := key_abc |}, db')
  /\ saveValue (db_abc (2 ^ 32 - 1)) key_abc value_123
  = Done ({| save_reference_count := 0; save_status := OK;
             storage_key := key_abc |}, db')
  /\ getValue db' key_abc
  = Done {| reference_count := 0; status := OK; stored_value := value_123 |}.
Proof.
  apply (C10_increment_wraps_at_uint32_max (db_abc (2 ^ 32 - 1)) key_abc value_123);
    reflexivity.
Defined.

(** ** Deleting *)

(** C5: when the record of [k] has a count above 1, [deleteValue] reports
    the count less one and rewrites the record with that count and the
    stored value; [getValue] then returns that count and the same value. *)
Theorem C5_deleteValue_decrements (db : TransactionDB) (k v : bytes) (c : Z) :
  write_fault db = OK -> commit_fault db = OK ->
  getValue db k = Done {| reference_count := c; status := OK; stored_value := v |} ->
  1 < c ->
  let db' := with_table db (<[k := serializeCountAndValue (c - 1) v]> (table db)) in
  deleteValue db k
  = Done ({| del_reference_count := c - 1; del_status := OK |}, db')
  /\ getValue db' k
  = Done {| reference_count := c - 1; status := OK; stored_value := v |}.
Proof.
  intros Hw Hc Hg Hgt db'.
  destruct (getValue_ok_inv _ _ _ _ Hg) as (Hgf & s & _ & Hp).
  apply parse_count_range in Hp.
  assert (Hu : u32 (c - 1) = c - 1) by (apply Z.mod_small; lia).
  split.
  - unfold deleteValue. rewrite Hg. cbn.
    destruct (Z.ltb_spec c 2) as [|_]; [lia|].
    rewrite saveValueWithRefCount_healthy by done. cbn. by rewrite Hu.
  - unfold db'. rewrite (getValue_after_put db k (c - 1) v)
      by (done || apply lookup_insert_eq).
    by rewrite Hu.
Qed.

Lemma C5_deleteValue_decrements_witness :
  let db' := with_table (db_abc 3)
               (<[key_abc := serializeCountAndValue (3 - 1) value_123]>
                  (table (db_abc 3))) in
  deleteValue (db_abc 3) key_abc
  = Done ({| del_reference_count := 3 - 1; del_status := OK |}, db')
  /\ getValue db' key_abc
  = Done {| reference_count := 3 - 1; status := OK; stored_value := value_123 |}.
Proof.
  apply (C5_deleteValue_decrements (db_abc 3) key_abc value_123 3);
    reflexivity.
Defined.

(** C6: when the record of [k] has a count of at most 1, [deleteValue]
    removes the record from the engine and reports count 0; [getValue] then
    reports NotFound. *)
Theorem C6_deleteValue_removes_last_reference (db : TransactionDB)
    (k v : bytes) (c : Z) :
  write_fault db = OK -> commit_fault db = OK ->
  getValue db k = Done {| reference_count := c; status := OK; stored_value := v |} ->
  c <= 1 ->
  let db' := with_table db (delete k (table db)) in
  deleteValue db k = Done ({| del_reference_count := 0; del_status := OK |}, db')
  /\ table db' !! k = None
  /\ getValue db' k
  = Done {| reference_count := 0; status := NotFound; stored_value := [] |}.
Proof.
  intros Hw Hc Hg Hle db'.
  assert (Hk : table db' !! k = None) by apply lookup_delete_eq.
  split; [|split; [exact Hk | by apply getValue_absent]].
  unfold deleteValue. rewrite Hg. cbn [exec_bind status reference_count ok].
  destruct (Z.ltb_spec c 2) as [_|]; [|lia].
  rewrite deleteKeyValuePair_healthy by done. reflexivity.
Qed.

Lemma C6_deleteValue_removes_last_reference_witness :
  let db' := with_table (db_abc 1) (delete key_abc (table (db_abc 1))) in
  deleteValue (db_abc 1) key_abc
  = Done ({| del_reference_count := 0; del_status := OK |}, db')
  /\ table db' !! key_abc = None
  /\ getValue db' key_abc
  = Done {| reference_count := 0; status := NotFound; stored_value := [] |}.
Proof.
  apply (C6_deleteValue_removes_last_reference (db_abc 1) key_abc value_123 1);
    [reflexivity | reflexivity | reflexivity | lia].
Defined.

(** ** Saving the same value again and again *)

Lemma u32_succ z : u32 (u32 z + 1) = u32 (z + 1).
Proof. unfold u32. apply Z.add_mod_idemp_l. lia. Qed.

Lemma save_times_succ n db k v :
  save_times (N.succ n) db k v
  = (db' <-- save_times n db k v ;; run_op db' (OpSave k v)).
Proof. unfold save_times. by rewrite N.iter_succ. Qed.

Lemma u32_idem z : u32 (u32 z) = u32 z.
Proof. unfold u32. apply Z.mod_mod. lia. Qed.

Lemma save_times_pos n db k v :
  healthy db -> table db !! k = None ->
  save_times (N.succ n) db k v
  = Done (with_table db
            (<[k := serializeCountAndValue (u32 (Z.of_N (N.succ n))) v]> (table db))).
Proof.
  intros (Hg & Hw & Hc) Hk. induction n as [|n IH] using N.peano_ind.
  - rewrite save_times_succ. cbn [save_times N.iter exec_bind run_op].
    by rewrite saveValue_absent.
  - rewrite save_times_succ, IH. cbn [exec_bind run_op].
    rewrite (saveValue_present _ k (u32 (Z.of_N (N.succ n))) v v); [|done..|].
    + rewrite decide_True by done. cbn [exec_bind snd with_table table].
      rewrite insert_insert_eq, u32_succ, (N2Z.inj_succ (N.succ n)).
      reflexivity.
    + rewrite (getValue_after_put db k (u32 (Z.of_N (N.succ n))) v)
        by (done || apply lookup_insert_eq).
      by rewrite u32_idem.
Qed.

Lemma save_times_spec n db k v :
  healthy db -> table db !! k = None -> (0 < n)%N ->
  save_times n db k v
  = Done (with_table db
            (<[k := serializeCountAndValue (u32 (Z.of_N n)) v]> (table db))).
Proof.
  intros Hh Hk Hn. rewrite <- (N.succ_pred_pos n Hn) at 1 2.
  by apply save_times_pos.
Qed.

Lemma getValue_after_save_times n db k v :
  healthy db -> table db !! k = None -> (0 < n)%N ->
  exists db',
    save_times n db k v = Done db' /\
    getValue db' k
    = Done {| reference_count := u32 (Z.of_N n); status := OK; stored_value := v |}.
Proof.
  intros Hh Hk Hn. eexists. split; [by apply save_times_spec|].
  rewrite (getValue_after_put db k (u32 (Z.of_N n)) v)
    by (apply Hh || apply lookup_insert_eq).
  by rewrite u32_idem.
Qed.

(** C3, as stated: [N] calls of [saveValue (k, v)] on a store without a
    record for [k] leave the count [N]. After 2^32 calls the count is 0. *)
Lemma C3_counterexample :
  healthy fresh_db /\ table fresh_db !! key_abc = None /\
  (exists db',
     save_times 4294967296 fresh_db key_abc value_123 = Done db' /\
     getValue db' key_abc
     = Done {| reference_count := 0; status := OK; stored_value := value_123 |}) /\
  ~ (exists db' r,
       save_times 4294967296 fresh_db key_abc value_123 = Done db' /\
       getValue db' key_abc = Done r /\
       reference_count r = 4294967296).
Proof.
  assert (Hh : healthy fresh_db) by (by repeat split).
  assert (Hk : table fresh_db !! key_abc = None) by reflexivity.
  assert (Hn : (0 < 4294967296)%N) by reflexivity.
  destruct (getValue_after_save_times 4294967296 fresh_db key_abc value_123 Hh Hk Hn)
    as (db' & Hrun & Hget).
  change (u32 (Z.of_N 4294967296)) with 0 in Hget.
  split; [exact Hh|]. split; [exact Hk|]. split.
  - exists db'. by split.
  - intros (db2 & r & Hrun2 & Hget2 & Hcount).
    rewrite Hrun in Hrun2. injection Hrun2 as <-.
    rewrite Hget in Hget2. injection Hget2 as <-.
    discriminate Hcount.
Qed.

(** C3, amended: on a healthy store without a record for [k], [N] calls of
    [saveValue (k, v)] all return and leave the count [N mod 2^32], which
    is [N] as long as [N <= 2^32 - 1]; for [N >= 1] [getValue] then returns
    that count with the value [v] and status OK. After one call it returns
    count 1, value [v], status OK. *)
Theorem C3_saveValue_n_times_counts_mod_2_32 (db : TransactionDB)
    (k v : bytes) (n : N) :
  healthy db -> table db !! k = None ->
  (exists db',
     save_times n db k v = Done db' /\
     (exists r, getValue db' k = Done r /\
                reference_count r = Z.of_N n mod 2 ^ 32) /\
     ((0 < n)%N ->
      getValue db' k
      = Done {| reference_count := Z.of_N n mod 2 ^ 32; status := OK;
                stored_value := v |}))
  /\ (Z.of_N n <= 2 ^ 32 - 1 -> Z.of_N n mod 2 ^ 32 = Z.of_N n)
  /\ (exists db1,
        saveValue db k v
        = Done ({| save_reference_count := 1; save_status := OK;
                   storage_key := k |}, db1) /\
        getValue db1 k
        = Done {| reference_count := 1; status := OK; stored_value := v |}).
Proof.
  intros Hh Hk. split; [|split].
  - destruct (N.eq_0_gt_0_cases n) as [->|Hn].
    + exists db. split; [reflexivity|]. split; [|intros Hn; by apply N.lt_irrefl in Hn].
      eexists. split; [by apply getValue_absent|]. reflexivity.
    + destruct (getValue_after_save_times n db k v Hh Hk Hn) as (db' & Hrun & Hget).
      exists db'. split; [exact Hrun|]. split; [|intros _; exact Hget].
      eexists. split; [exact Hget|]. reflexivity.
  - intros Hle. apply Z.mod_small. lia.
  - destruct Hh as (Hg & Hw & Hc). eexists. split; [by apply saveValue_absent|].
    by rewrite (getValue_after_put db k 1 v) by (done || apply lookup_insert_eq).
Qed.

Lemma C3_saveValue_n_times_counts_mod_2_32_witness :
  (exists db',
     save_times 3 fresh_db key_abc value_123 = Done db' /\
     (exists r, getValue db' key_abc = Done r /\
                reference_count r = Z.of_N 3 mod 2 ^ 32) /\
     ((0 < 3)%N ->
      getValue db' key_abc
      = Done {| reference_count := Z.of_N 3 mod 2 ^ 32; status := OK;
                stored_value := value_123 |}))
  /\ (Z.of_N 3 <= 2 ^ 32 - 1 -> Z.of_N 3 mod 2 ^ 32 = Z.of_N 3)
  /\ (exists db1,
        saveValue fresh_db key_abc value_123
        = Done ({| save_reference_count := 1; save_status := OK;
                   storage_key := key_abc |}, db1) /\
        getValue db1 key_abc
        = Done {| reference_count := 1; status := OK; stored_value := value_123 |}).
Proof.
  apply (C3_saveValue_n_times_counts_mod_2_32 fresh_db key_abc value_123 3).
  - repeat split.
  - reflexivity.
Defined.

(** ** Reachable states keep the invariant *)

Lemma counts_positive_empty : counts_positive ∅.
Proof. intros k s Hk. by rewrite lookup_empty in Hk. Qed.

Lemma counts_positive_insert t k c v :
  counts_positive t -> 1 <= c < 2 ^ 32 ->
  counts_positive (<[k := serializeCountAndValue c v]> t).
Proof.
  intros Ht Hc k' s. rewrite lookup_insert. case_decide.
  - intros [= <-]. by exists c, v.
  - apply Ht.
Qed.

Lemma counts_positive_delete t k :
  counts_positive t -> counts_positive (delete k t).
Proof.
  intros Ht k' s. rewrite lookup_delete. case_decide; [done|]. apply Ht.
Qed.

Lemma counts_positive_record_iff_counted db :
  counts_positive (table db) -> record_iff_counted db.
Proof.
  intros Ht k. unfold record_count. destruct (table db !! k) as [s|] eqn:Hk.
  - destruct (Ht k s Hk) as (c & v & -> & Hc). exists c.
    rewrite parse_serialize. unfold u32. rewrite Z.mod_small by lia.
    split; [reflexivity|]. split; [lia|]. by eexists.
  - exists 0. split; [reflexivity|]. split; [by intros [? ?]|lia].
Qed.

Lemma getValue_counts_positive db k :
  counts_positive (table db) ->
  getValue db k
  = Done {| reference_count := 0; status := NotFound; stored_value := [] |}
  \/ exists c v,
       1 <= c < 2 ^ 32 /\
       table db !! k = Some (serializeCountAndValue c v) /\
       getValue db k
       = Done {| reference_count := c; status := OK; stored_value := v |}.
Proof.
  intros Ht. destruct (ok (get_fault db)) eqn:Hf.
  - apply ok_true in Hf. destruct (table db !! k) as [s|] eqn:Hk.
    + right. destruct (Ht k s Hk) as (c & v & -> & Hc). exists c, v.
      split; [done|]. split; [done|].
      rewrite (getValue_present db k _ Hf Hk), parse_serialize. cbn.
      unfold u32. by rewrite Z.mod_small by lia.
    + left. by apply getValue_absent.
  - left. apply getValue_read_failed. unfold Get. by rewrite Hf.
Qed.

Lemma saveKeyValuePair_inv db key value st db' :
  saveKeyValuePair db key value = Done (st, db') ->
  st = OK /\ db' = with_table db (<[key := value]> (table db)).
Proof.
  unfold saveKeyValuePair, makeTransaction, BeginTransaction, Put, buffer, Commit.
  cbn. destruct (ok (write_fault db)) eqn:Hw; cbn.
  - destruct (ok (commit_fault db)) eqn:Hc; cbn.
    + by intros [= <- <-].
    + rewrite Hc. discriminate.
  - rewrite Hw. discriminate.
Qed.

Lemma deleteKeyValuePair_inv db key st db' :
  deleteKeyValuePair db key = Done (st, db') ->
  st = OK /\ db' = with_table db (delete key (table db)).
Proof.
  unfold deleteKeyValuePair, makeTransaction, BeginTransaction, Delete, buffer,
    Commit.
  cbn. destruct (ok (write_fault db)) eqn:Hw; cbn.
  - destruct (ok (commit_fault db)) eqn:Hc; cbn.
    + by intros [= <- <-].
    + rewrite Hc. discriminate.
  - rewrite Hw. discriminate.
Qed.

Lemma saveValueWithRefCount_inv db n key value r db' :
  saveValueWithRefCount db n key value = Done (r, db') ->
  db' = with_table db (<[key := serializeCountAndValue n value]> (table db)).
Proof.
  unfold saveValueWithRefCount.
  destruct (saveKeyValuePair db key (serializeCountAndValue n value))
    as [[st db'']| |] eqn:Hs; cbn; [|done..].
  apply saveKeyValuePair_inv in Hs as [-> ->]. cbn. by intros [= _ <-].
Qed.

(** A call that returns and is not an increment at [UINT32_MAX] keeps every
    count positive. *)
Lemma run_op_counts_positive db op db' :
  counts_positive (table db) -> wraps db op = false -> run_op db op = Done db' ->
  counts_positive (table db').
Proof.
  intros Ht Hnw Hrun. destruct op as [k v|k|k]; cbn in Hrun, Hnw.
  - (* saveValue *)
    unfold saveValue in Hrun.
    destruct (getValue_counts_positive db k Ht) as [Hg|(c & v0 & Hc & Hk & Hg)];
      rewrite Hg in Hrun, Hnw; cbn in Hrun, Hnw.
    + destruct (saveValueWithRefCount db (u32 1) k v) as [[r db'']| |] eqn:Hs;
        cbn in Hrun; [|done..].
      injection Hrun as ->. apply saveValueWithRefCount_inv in Hs as ->.
      apply counts_positive_insert; [done|]. by cbv.
    + apply Z.eqb_neq in Hnw. unfold UINT32_MAX in Hnw.
      destruct (bool_decide (v0 = v)); cbn in Hrun; [|done].
      rewrite u32_int_of_u32 in Hrun by apply u32_range.
      destruct (saveValueWithRefCount db (u32 (c + 1)) k v) as [[r db'']| |] eqn:Hs;
        cbn in Hrun; [|done..].
      injection Hrun as ->. apply saveValueWithRefCount_inv in Hs as ->.
      apply counts_positive_insert; [done|].
      unfold u32. rewrite Z.mod_small by lia. lia.
  - (* incrementReference *)
    unfold incrementReference in Hrun.
    destruct (getValue_counts_positive db k Ht) as [Hg|(c & v0 & Hc & Hk & Hg)];
      rewrite Hg in Hrun, Hnw; cbn in Hrun, Hnw.
    + by injection Hrun as <-.
    + apply Z.eqb_neq in Hnw. unfold UINT32_MAX in Hnw.
      destruct (saveValueWithRefCount db (u32 (c + 1)) k v0) as [[r db'']| |] eqn:Hs;
        cbn in Hrun; [|done..].
      injection Hrun as ->. apply saveValueWithRefCount_inv in Hs as ->.
      apply counts_positive_insert; [done|].
      unfold u32. rewrite Z.mod_small by lia. lia.
  - (* deleteValue *)
    unfold deleteValue in Hrun.
    destruct (getValue_counts_positive db k Ht) as [Hg|(c & v0 & Hc & Hk & Hg)];
      rewrite Hg in Hrun; cbn [exec_bind status reference_count stored_value ok] in Hrun.
    + by injection Hrun as <-.
    + destruct (Z.ltb_spec c 2) as [Hlt|Hge].
      * destruct (deleteKeyValuePair db k) as [[st db'']| |] eqn:Hs;
          cbn in Hrun; [|done..].
        injection Hrun as ->. apply deleteKeyValuePair_inv in Hs as [_ ->].
        by apply counts_positive_delete.
      * destruct (saveValueWithRefCount db (u32 (c - 1)) k v0) as [[r db'']| |] eqn:Hs;
          cbn in Hrun; [|done..].
        injection Hrun as ->. apply saveValueWithRefCount_inv in Hs as ->.
        apply counts_positive_insert; [done|].
        unfold u32. rewrite Z.mod_small by lia. lia.
Qed.

Lemma reachable_no_wrap_counts_positive db :
  reachable no_wrap db -> counts_positive (table db).
Proof.
  induction 1 as [db Hempty|db op db' _ IH Hallowed Hrun].
  - rewrite Hempty. apply counts_positive_empty.
  - by apply (run_op_counts_positive db op db').
Qed.

Lemma save_times_reachable n db k v db' :
  reachable any_call db -> save_times n db k v = Done db' ->
  reachable any_call db'.
Proof.
  intros Hdb. revert db'. induction n as [|n IH] using N.peano_ind; intros db'.
  - by intros [= <-].
  - rewrite save_times_succ.
    destruct (save_times n db k v) as [db_n| |]; cbn [exec_bind]; [|done..].
    intros Hrun. by apply (reachable_step any_call db_n (OpSave k v) db'); [apply IH| |].
Qed.

(** C1, as stated: in every state that calls of [saveValue],
    [incrementReference] and [deleteValue] lead to, a record exists if and
    only if its count is at least 1. 2^32 calls of [saveValue] on a fresh
    store lead to a state that holds a record with count 0. *)
Lemma C1_counterexample :
  save_times 4294967296 fresh_db key_abc value_123 = Done (db_abc 0) /\
  reachable any_call (db_abc 0) /\
  table (db_abc 0) !! key_abc = Some ([x00; x00; x00; x00] ++ value_123) /\
  getValue (db_abc 0) key_abc
  = Done {| reference_count := 0; status := OK; stored_value := value_123 |} /\
  ~ record_iff_counted (db_abc 0).
Proof.
  assert (Hrun : save_times 4294967296 fresh_db key_abc value_123 = Done (db_abc 0)).
  { rewrite save_times_spec; [reflexivity | by repeat split | reflexivity | reflexivity]. }
  split; [exact Hrun|]. split; [|split; [reflexivity|split; [reflexivity|]]].
  - apply (save_times_reachable 4294967296 fresh_db key_abc value_123);
      [|exact Hrun].
    by apply reachable_open.
  - intros Hinv. destruct (Hinv key_abc) as (c & Hc & Hiff).
    injection Hc as <-. assert (H : 1 <= 0) by (apply Hiff; by eexists). lia.
Qed.

(** C1, amended: in every state reached from a freshly opened store by calls
    of [saveValue], [incrementReference] and [deleteValue] that returned,
    none of them an increment of a count that stood at [2^32 - 1], a
    record exists for a key if and only if its reference count is at least
    1; and while reads work [getValue] reports that count. *)
Theorem C1_record_exists_iff_count_positive (db : TransactionDB) :
  reachable no_wrap db ->
  record_iff_counted db
  /\ (get_fault db = OK ->
      forall k, exists r,
        getValue db k = Done r /\
        (is_Some (table db !! k) <-> 1 <= reference_count r)).
Proof.
  intros Hreach. apply reachable_no_wrap_counts_positive in Hreach as Ht.
  split; [by apply counts_positive_record_iff_counted|].
  intros Hg k.
  destruct (getValue_counts_positive db k Ht) as [Hget|(c & v & Hc & Hk & Hget)];
    rewrite Hget; eexists; (split; [reflexivity|]); cbn.
  - split; [|lia]. intros [s Hs]. destruct (Ht k s Hs) as (c & v & -> & Hc).
    rewrite (getValue_present db k _ Hg Hs), parse_serialize in Hget.
    discriminate Hget.
  - rewrite Hk. split; [lia|]. by eexists.
Qed.

Lemma C1_record_exists_iff_count_positive_witness :
  record_iff_counted (db_abc 1)
  /\ (get_fault (db_abc 1) = OK ->
      forall k, exists r,
        getValue (db_abc 1) k = Done r /\
        (is_Some (table (db_abc 1) !! k) <-> 1 <= reference_count r)).
Proof.
  apply C1_record_exists_iff_count_positive.
  apply (reachable_step no_wrap fresh_db (OpSave key_abc value_123) (db_abc 1)).
  - apply reachable_open. reflexivity.
  - reflexivity.
  - reflexivity.
Defined.

(** ** More on the record format *)

Lemma ok_false_iff s : s <> OK <-> ok s = false.
Proof. by destruct s. Qed.

Lemma byte_of_Z_mod z : byte_of_Z (z mod 256) = byte_of_Z z.
Proof. unfold byte_of_Z. by rewrite Z.mod_mod by lia. Qed.

Lemma Z_of_byte_mod b : Z_of_byte b mod 2 ^ 8 = Z_of_byte b.
Proof. apply Z.mod_small, Z_of_byte_range. Qed.

Lemma lor_shift_low b x :
  Z.lor (Z_of_byte b) (Z.shiftl x 8) mod 256 = Z_of_byte b.
Proof.
  change 256 with (2 ^ 8). apply Z.bits_inj'. intros i Hi.
  rewrite Z.testbit_mod_pow2, Z.lor_spec by lia.
  rewrite <- (Z_of_byte_mod b), Z.testbit_mod_pow2 by lia.
  destruct (Z.ltb_spec i 8); cbn [andb]; [|reflexivity].
  rewrite Z.shiftl_spec, (Z.testbit_neg_r _ (i - 8)) by lia.
  by rewrite orb_false_r.
Qed.

Lemma lor_shift_high b x :
  Z.shiftr (Z.lor (Z_of_byte b) (Z.shiftl x 8)) 8 = x.
Proof.
  apply Z.bits_inj'. intros i Hi.
  rewrite Z.shiftr_spec, Z.lor_spec, Z.shiftl_spec by lia.
  rewrite <- (Z_of_byte_mod b), Z.testbit_mod_pow2 by lia.
  destruct (Z.ltb_spec (i + 8) 8); [lia|]. cbn [andb orb].
  f_equal. lia.
Qed.

Lemma le_split_combine bs : le_split (length bs) (le_combine bs) = bs.
Proof.
  induction bs as [|b bs IH]; [reflexivity|].
  cbn [length le_combine le_split].
  rewrite <- byte_of_Z_mod, lor_shift_low, byte_of_Z_of_byte, lor_shift_high.
  by rewrite IH.
Qed.

Lemma serialize_length count value :
  length (serializeCountAndValue count value) = (4 + length value)%nat.
Proof.
  unfold serializeCountAndValue. by rewrite length_app, length_le_split.
Qed.

Lemma parse_long s :
  (4 <= length s)%nat ->
  parseCountAndValue s = Done (le_combine (take 4 s), drop 4 s).
Proof.
  intros Hl. unfold parseCountAndValue.
  rewrite decide_False by (intros ->; cbn in Hl; lia).
  by rewrite decide_False by lia.
Qed.

Lemma parse_then_serialize s :
  (4 <= length s)%nat ->
  exists c v,
    parseCountAndValue s = Done (c, v) /\
    0 <= c < 2 ^ 32 /\
    length v = (length s - 4)%nat /\
    serializeCountAndValue c v = s.
Proof.
  intros Hl. exists (le_combine (take 4 s)), (drop 4 s).
  split; [by apply parse_long|]. split; [|split].
  - pose proof (le_combine_bound (take 4 s)) as Hb.
    by rewrite length_take, Nat.min_l in Hb by lia.
  - apply length_drop.
  - unfold serializeCountAndValue.
    assert (Ht : length (take 4 s) = 4%nat) by (rewrite length_take; lia).
    rewrite <- Ht at 1. rewrite le_split_combine. apply take_drop.
Qed.

(** X1: a stored string of at least 4 bytes parses, into a count that fits
    32 bits and a value 4 bytes shorter, and serializing that pair gives
    the string back. *)
Theorem X1_serialize_parse_roundtrip (s : bytes) :
  (4 <= length s)%nat ->
  exists c v,
    parseCountAndValue s = Done (c, v) /\
    0 <= c < 2 ^ 32 /\
    length v = (length s - 4)%nat /\
    serializeCountAndValue c v = s.
Proof. apply parse_then_serialize. Qed.

Lemma X1_serialize_parse_roundtrip_witness :
  exists c v,
    parseCountAndValue [x02; x01; x00; x00; xff] = Done (c, v) /\
    0 <= c < 2 ^ 32 /\
    length v = (length [x02; x01; x00; x00; xff] - 4)%nat /\
    serializeCountAndValue c v = [x02; x01; x00; x00; xff].
Proof. apply X1_serialize_parse_roundtrip. cbn. lia. Defined.

(** X2: [parseCountAndValue] returns exactly on the empty string and on
    strings of 4 bytes or more; on 1 to 3 bytes it has no defined result;
    it never stops at an assertion. The empty string is the only one that
    does not come back from serializing what was parsed. *)
Theorem X2_parse_defined_iff (s : bytes) :
  ((exists c v, parseCountAndValue s = Done (c, v))
   <-> s = [] \/ (4 <= length s)%nat)
  /\ (parseCountAndValue s = UndefinedBehaviour <-> (0 < length s < 4)%nat)
  /\ parseCountAndValue s <> AssertionFailed
  /\ (forall c v, parseCountAndValue s = Done (c, v) ->
        (serializeCountAndValue c v = s <-> s <> [])).
Proof.
  destruct (decide (s = [])) as [->|Hne].
  - split; [|split; [|split]].
    + split; [by left|]. intros _. by exists 0, [].
    + split; [done|]. cbn. lia.
    + done.
    + intros c v [= <- <-]. split; [discriminate|done].
  - assert (0 < length s)%nat by (destruct s; [done|cbn; lia]).
    destruct (decide (length s < 4)%nat) as [Hlt|Hge].
    + assert (Hp : parseCountAndValue s = UndefinedBehaviour).
      { unfold parseCountAndValue. rewrite decide_False by done.
        by rewrite decide_True by done. }
      rewrite Hp. split; [|split; [|split]]; try done.
      * split; [by intros (? & ? & ?)|]. intros [?|?]; [done|lia].
    + destruct (parse_then_serialize s) as (c & v & Hp & _ & _ & Hs); [lia|].
      rewrite Hp. split; [|split; [|split]]; try done.
      * split; [right; lia|]. by exists c, v.
      * split; [done|lia].
      * intros c' v' [= <- <-]. by split.
Qed.

(** X3: two serialized records are equal only if they hold the same count
    and the same value. *)
Theorem X3_serialize_injective (c c' : Z) (v v' : bytes) :
  0 <= c < 2 ^ 32 -> 0 <= c' < 2 ^ 32 ->
  serializeCountAndValue c v = serializeCountAndValue c' v' ->
  c = c' /\ v = v'.
Proof.
  intros Hc Hc' Heq. apply (f_equal parseCountAndValue) in Heq.
  rewrite !parse_serialize in Heq. unfold u32 in Heq.
  rewrite !Z.mod_small in Heq by lia. by injection Heq.
Qed.

Lemma X3_serialize_injective_witness : 7 = 7 /\ value_123 = value_123.
Proof.
  apply (X3_serialize_injective 7 7 value_123 value_123); [lia | lia | reflexivity].
Defined.

(** ** What a returned result tells *)

Lemma with_table_id db : with_table db (table db) = db.
Proof. by destruct db. Qed.

Lemma with_table_twice db t t' :
  with_table (with_table db t) t' = with_table db t'.
Proof. reflexivity. Qed.

Lemma saveValueWithRefCount_inv_result db n key value r db' :
  saveValueWithRefCount db n key value = Done (r, db') ->
  r = {| save_reference_count := n; save_status := OK; storage_key := key |}
  /\ db' = with_table db (<[key := serializeCountAndValue n value]> (table db)).
Proof.
  unfold saveValueWithRefCount.
  destruct (saveKeyValuePair db key (serializeCountAndValue n value))
    as [[st db'']| |] eqn:Hs; cbn; [|done..].
  apply saveKeyValuePair_inv in Hs as [-> ->]. cbn. by intros [= <- <-].
Qed.

Lemma getValue_cases db k :
  getValue db k = UndefinedBehaviour
  \/ getValue db k
     = Done {| reference_count := 0; status := NotFound; stored_value := [] |}
  \/ exists c v,
       0 <= c < 2 ^ 32 /\
       getValue db k
       = Done {| reference_count := c; status := OK; stored_value := v |}.
Proof.
  unfold getValue. destruct (Get db k) as [st rv]. destruct (ok st) eqn:Hst.
  - apply ok_true in Hst as ->.
    destruct (parseCountAndValue rv) as [[c v]| |] eqn:Hp; cbn.
    + right. right. exists c, v. split; [|done]. by apply parse_count_range in Hp.
    + unfold parseCountAndValue in Hp. by repeat case_decide.
    + by left.
  - right. by left.
Qed.

Lemma getValue_with_table_other db k' t :
  t !! k' = table db !! k' -> getValue (with_table db t) k' = getValue db k'.
Proof. intros Ht. unfold getValue, Get. cbn. by rewrite Ht. Qed.

Lemma saveValue_inv db k v r db' :
  saveValue db k v = Done (r, db') ->
  exists n, 0 <= n < 2 ^ 32 /\
    r = {| save_reference_count := n; save_status := OK; storage_key := k |} /\
    db' = with_table db (<[k := serializeCountAndValue n v]> (table db)).
Proof.
  unfold saveValue.
  destruct (getValue db k) as [g| |]; cbn [exec_bind]; [|done..].
  destruct (ok (status g)); cbn [exec_bind].
  - destruct (assert _); cbn [exec_bind]; [|done..].
    intros Hs. apply saveValueWithRefCount_inv_result in Hs as [-> ->].
    eexists. split; [apply u32_range|]. done.
  - intros Hs. apply saveValueWithRefCount_inv_result in Hs as [-> ->].
    eexists. split; [apply u32_range|]. done.
Qed.

(** X4: a result that [saveValue] returns always has status OK and the key
    it was called with, and its count is the one in the record now stored
    under the key, in front of the value passed; while reads work,
    [getValue] reads back that count and that value. *)
Theorem X4_saveValue_result_matches_store (db db' : TransactionDB)
    (k v : bytes) (r : SaveResults) :
  saveValue db k v = Done (r, db') ->
  save_status r = OK /\ storage_key r = k /\
  0 <= save_reference_count r < 2 ^ 32 /\
  table db' !! k = Some (serializeCountAndValue (save_reference_count r) v) /\
  (get_fault db = OK ->
   getValue db' k
   = Done {| reference_count := save_reference_count r; status := OK;
             stored_value := v |}).
Proof.
  intros Hs. apply saveValue_inv in Hs as (n & Hn & -> & ->). cbn.
  split; [done|]. split; [done|]. split; [done|].
  split; [apply lookup_insert_eq|]. intros Hg.
  rewrite (getValue_after_put db k n v) by (done || apply lookup_insert_eq).
  unfold u32. by rewrite Z.mod_small by lia.
Qed.

Lemma X4_saveValue_result_matches_store_witness :
  save_status {| save_reference_count := 1; save_status := OK;
                 storage_key := key_abc |} = OK /\
  storage_key {| save_reference_count := 1; save_status := OK;
                 storage_key := key_abc |} = key_abc /\
  0 <= save_reference_count {| save_reference_count := 1; save_status := OK;
                               storage_key := key_abc |} < 2 ^ 32 /\
  table (db_abc 1) !! key_abc
  = Some (serializeCountAndValue
            (save_reference_count {| save_reference_count := 1; save_status := OK;
                                     storage_key := key_abc |}) value_123) /\
  (get_fault fresh_db = OK ->
   getValue (db_abc 1) key_abc
   = Done {| reference_count :=
               save_reference_count {| save_reference_count := 1;
                                       save_status := OK;
                                       storage_key := key_abc |};
             status := OK; stored_value := value_123 |}).
Proof.
  apply (X4_saveValue_result_matches_store fresh_db (db_abc 1) key_abc value_123).
  reflexivity.
Defined.

(** X5: a result that [incrementReference] returns is either NotFound with
    count 0 and the store untouched, or OK: then the key had a record, the
    count returned is its count plus one (modulo 2^32), and [getValue]
    reads back that count with the value the record had. *)
Theorem X5_incrementReference_result (db db' : TransactionDB) (k : bytes)
    (r : SaveResults) :
  incrementReference db k = Done (r, db') ->
  (r = {| save_reference_count := 0; save_status := NotFound; storage_key := k |}
   /\ db' = db)
  \/ (exists c v,
        getValue db k
        = Done {| reference_count := c; status := OK; stored_value := v |} /\
        r = {| save_reference_count := (c + 1) mod 2 ^ 32; save_status := OK;
               storage_key := k |} /\
        getValue db' k
        = Done {| reference_count := (c + 1) mod 2 ^ 32; status := OK;
                  stored_value := v |}).
Proof.
  unfold incrementReference.
  destruct (getValue_cases db k) as [Hg|[Hg|(c & v & Hc & Hg)]];
    rewrite Hg; cbn [exec_bind status reference_count stored_value ok]; [done| |].
  - intros [= <- <-]. by left.
  - intros Hs. apply saveValueWithRefCount_inv_result in Hs as [-> ->].
    right. exists c, v. split; [done|]. split; [done|].
    apply getValue_ok_inv in Hg as (Hgf & _).
    rewrite (getValue_after_put db k (u32 (c + 1)) v)
      by (done || apply lookup_insert_eq).
    by rewrite u32_idem.
Qed.

Lemma X5_incrementReference_result_witness :
  ({| save_reference_count := 3; save_status := OK; storage_key := key_abc |}
   = {| save_reference_count := 0; save_status := NotFound; storage_key := key_abc |}
   /\ db_abc 3 = db_abc 2)
  \/ (exists c v,
        getValue (db_abc 2) key_abc
        = Done {| reference_count := c; status := OK; stored_value := v |} /\
        {| save_reference_count := 3; save_status := OK; storage_key := key_abc |}
        = {| save_reference_count := (c + 1) mod 2 ^ 32; save_status := OK;
             storage_key := key_abc |} /\
        getValue (db_abc 3) key_abc
        = Done {| reference_count := (c + 1) mod 2 ^ 32; status := OK;
                  stored_value := v |}).
Proof.
  apply (X5_incrementReference_result (db_abc 2) (db_abc 3) key_abc).
  reflexivity.
Defined.

(** X6: a result that [deleteValue] returns is either NotFound with count 0
    and the store untouched, or OK: then the key had a record, and either
    its count was below 2, the count returned is 0 and the record is gone,
    or the count returned is one less and [getValue] reads back that count
    with the value the record had. *)
Theorem X6_deleteValue_result (db db' : TransactionDB) (k : bytes)
    (r : DeleteResults) :
  deleteValue db k = Done (r, db') ->
  (r = {| del_reference_count := 0; del_status := NotFound |} /\ db' = db)
  \/ (exists c v,
        getValue db k
        = Done {| reference_count := c; status := OK; stored_value := v |} /\
        ((c < 2 /\ r = {| del_reference_count := 0; del_status := OK |} /\
          table db' !! k = None)
         \/ (2 <= c /\
             r = {| del_reference_count := c - 1; del_status := OK |} /\
             getValue db' k
             = Done {| reference_count := c - 1; status := OK;
                       stored_value := v |}))).
Proof.
  unfold deleteValue.
  destruct (getValue_cases db k) as [Hg|[Hg|(c & v & Hc & Hg)]];
    rewrite Hg; cbn [exec_bind status reference_count stored_value ok]; [done| |].
  - intros [= <- <-]. by left.
  - destruct (Z.ltb_spec c 2) as [Hlt|Hge]; intros H;
      right; exists c, v; (split; [done|]).
    + left.
      destruct (deleteKeyValuePair db k) as [[st db'']| |] eqn:Hd;
        cbn in H; [|done..].
      apply deleteKeyValuePair_inv in Hd as [-> ->]. injection H as <- <-.
      split; [done|]. split; [done|]. apply lookup_delete_eq.
    + right.
      destruct (saveValueWithRefCount db (u32 (c - 1)) k v) as [[sr db'']| |] eqn:Hs;
        cbn in H; [|done..].
      apply saveValueWithRefCount_inv_result in Hs as [-> ->].
      injection H as <- <-. cbn.
      assert (Hu : u32 (c - 1) = c - 1) by (apply Z.mod_small; lia).
      rewrite Hu. split; [done|]. split; [done|].
      apply getValue_ok_inv in Hg as (Hgf & _).
      rewrite (getValue_after_put db k (c - 1) v)
        by (done || apply lookup_insert_eq).
      by rewrite Hu.
Qed.

Lemma X6_deleteValue_result_witness :
  ({| del_reference_count := 2; del_status := OK |}
   = {| del_reference_count := 0; del_status := NotFound |} /\ db_abc 2 = db_abc 3)
  \/ (exists c v,
        getValue (db_abc 3) key_abc
        = Done {| reference_count := c; status := OK; stored_value := v |} /\
        ((c < 2 /\
          {| del_reference_count := 2; del_status := OK |}
          = {| del_reference_count := 0; del_status := OK |} /\
          table (db_abc 2) !! key_abc = None)
         \/ (2 <= c /\
             {| del_reference_count := 2; del_status := OK |}
             = {| del_reference_count := c - 1; del_status := OK |} /\
             getValue (db_abc 2) key_abc
             = Done {| reference_count := c - 1; status := OK;
                       stored_value := v |}))).
Proof.
  apply (X6_deleteValue_result (db_abc 3) (db_abc 2) key_abc).
  reflexivity.
Defined.

(** X7: for a key without a record, [deleteValue] returns status NotFound
    with count 0, and the store is the one it started from. *)
Theorem X7_deleteValue_absent (db : TransactionDB) (k : bytes) :
  table db !! k = None ->
  deleteValue db k
  = Done ({| del_reference_count := 0; del_status := NotFound |}, db).
Proof.
  intros Hk. unfold deleteValue. by rewrite getValue_absent.
Qed.

Lemma X7_deleteValue_absent_witness :
  deleteValue fresh_db key_abc
  = Done ({| del_reference_count := 0; del_status := NotFound |}, fresh_db).
Proof. apply X7_deleteValue_absent. reflexivity. Defined.

(** ** Calls touch one key *)

Lemma run_op_table db op db' :
  run_op db op = Done db' ->
  db' = db
  \/ (exists n v, 0 <= n < 2 ^ 32 /\
        db' = with_table db
                (<[key_of op := serializeCountAndValue n v]> (table db)))
  \/ db' = with_table db (delete (key_of op) (table db)).
Proof.
  destruct op as [k v|k|k]; cbn [run_op key_of].
  - destruct (saveValue db k v) as [[r d]| |] eqn:Hs; cbn; [|done..].
    intros [= <-]. apply saveValue_inv in Hs as (n & Hn & _ & ->).
    right. left. by exists n, v.
  - unfold incrementReference.
    destruct (getValue db k) as [g| |]; cbn [exec_bind]; [|done..].
    destruct (ok (status g)).
    + destruct (saveValueWithRefCount _ _ _ _) as [[r d]| |] eqn:Hs; cbn; [|done..].
      intros [= <-]. apply saveValueWithRefCount_inv in Hs as ->.
      right. left. eexists _, _. split; [apply u32_range|done].
    + cbn. intros [= <-]. by left.
  - unfold deleteValue.
    destruct (getValue db k) as [g| |]; cbn [exec_bind]; [|done..].
    destruct (ok (status g)).
    + destruct (reference_count g <? 2).
      * destruct (deleteKeyValuePair db k) as [[st d]| |] eqn:Hd; cbn; [|done..].
        intros [= <-]. apply deleteKeyValuePair_inv in Hd as [_ ->].
        by right; right.
      * destruct (saveValueWithRefCount _ _ _ _) as [[r d]| |] eqn:Hs; cbn; [|done..].
        intros [= <-]. apply saveValueWithRefCount_inv in Hs as ->.
        right. left. eexists _, _. split; [apply u32_range|done].
    + cbn. intros [= <-]. by left.
Qed.

(** X8: a call of [saveValue], [incrementReference] or [deleteValue] that
    returns leaves the record of every other key as it was, and with it
    what [getValue] returns for that key. *)
Theorem X8_calls_leave_other_keys (db db' : TransactionDB) (op : Op) (k' : bytes) :
  run_op db op = Done db' ->
  k' <> key_of op ->
  table db' !! k' = table db !! k' /\ getValue db' k' = getValue db k'.
Proof.
  intros Hrun Hne.
  destruct (run_op_table db op db' Hrun) as [->|[(n & v & _ & ->)| ->]]; [done| |].
  - assert (Hl : <[key_of op := serializeCountAndValue n v]> (table db) !! k'
                 = table db !! k')
      by by apply lookup_insert_ne.
    split; [exact Hl|]. by apply getValue_with_table_other.
  - assert (Hl : delete (key_of op) (table db) !! k' = table db !! k')
      by by apply lookup_delete_ne.
    split; [exact Hl|]. by apply getValue_with_table_other.
Qed.

Lemma X8_calls_leave_other_keys_witness :
  table (with_table (db_abc 2)
           (<[value_123 := serializeCountAndValue 1 key_abc]> (table (db_abc 2))))
    !! key_abc
  = table (db_abc 2) !! key_abc /\
  getValue (with_table (db_abc 2)
              (<[value_123 := serializeCountAndValue 1 key_abc]> (table (db_abc 2))))
    key_abc
  = getValue (db_abc 2) key_abc.
Proof.
  apply (X8_calls_leave_other_keys (db_abc 2) _ (OpSave value_123 key_abc) key_abc).
  - reflexivity.
  - discriminate.
Defined.

(** ** While the engine fails *)

Lemma getValue_unreadable db k :
  get_fault db <> OK ->
  getValue db k
  = Done {| reference_count := 0; status := NotFound; stored_value := [] |}.
Proof.
  intros Hg. apply getValue_read_failed. unfold Get.
  apply ok_false_iff in Hg. by rewrite Hg.
Qed.

(** X9: while the engine's reads fail, [saveValue] on a working write path
    stores the value passed with count 1 and reports count 1 with status
    OK, whatever record the key had: the stored value is not compared and
    the stored count is not used. *)
Theorem X9_saveValue_resets_when_read_fails (db : TransactionDB) (k v : bytes) :
  get_fault db <> OK -> write_fault db = OK -> commit_fault db = OK ->
  saveValue db k v
  = Done ({| save_reference_count := 1; save_status := OK; storage_key := k |},
          with_table db (<[k := serializeCountAndValue 1 v]> (table db))).
Proof.
  intros Hg Hw Hc. unfold saveValue.
  rewrite getValue_unreadable by done.
  cbn. by apply saveValueWithRefCount_healthy.
Qed.

Lemma X9_saveValue_resets_when_read_fails_witness :
  saveValue (db_abc_unreadable 5) key_abc key_abc
  = Done ({| save_reference_count := 1; save_status := OK;
             storage_key := key_abc |},
          with_table (db_abc_unreadable 5)
            (<[key_abc := serializeCountAndValue 1 key_abc]>
               (table (db_abc_unreadable 5)))).
Proof.
  apply X9_saveValue_resets_when_read_fails; [discriminate | reflexivity..].
Defined.

(** X10: while the engine's reads fail, [incrementReference] and
    [deleteValue] return NotFound with count 0 and leave the store as it
    is, whether or not the key has a record. *)
Theorem X10_increment_delete_not_found_when_read_fails (db : TransactionDB)
    (k : bytes) :
  get_fault db <> OK ->
  incrementReference db k
  = Done ({| save_reference_count := 0; save_status := NotFound;
             storage_key := k |}, db)
  /\ deleteValue db k
     = Done ({| del_reference_count := 0; del_status := NotFound |}, db).
Proof.
  intros Hg.
  unfold incrementReference, deleteValue.
  by rewrite getValue_unreadable.
Qed.

Lemma X10_increment_delete_not_found_when_read_fails_witness :
  incrementReference (db_abc_unreadable 5) key_abc
  = Done ({| save_reference_count := 0; save_status := NotFound;
             storage_key := key_abc |}, db_abc_unreadable 5)
  /\ deleteValue (db_abc_unreadable 5) key_abc
     = Done ({| del_reference_count := 0; del_status := NotFound |},
             db_abc_unreadable 5).
Proof.
  apply X10_increment_delete_not_found_when_read_fails. discriminate.
Defined.

Lemma saveKeyValuePair_unwritable db key value :
  write_fault db <> OK \/ commit_fault db <> OK ->
  saveKeyValuePair db key value = AssertionFailed.
Proof.
  intros Hf.
  destruct (saveKeyValuePair db key value) as [[st d]| |] eqn:Hs; [|done|].
  - exfalso. revert Hs.
    unfold saveKeyValuePair, makeTransaction, BeginTransaction, Put, buffer, Commit.
    cbn. destruct (ok (write_fault db)) eqn:Hw; cbn.
    + destruct (ok (commit_fault db)) eqn:Hc; cbn.
      * apply ok_true in Hw, Hc. by destruct Hf.
      * by rewrite Hc.
    + by rewrite Hw.
  - revert Hs.
    unfold saveKeyValuePair, makeTransaction, BeginTransaction, Put, buffer, Commit.
    cbn. destruct (ok (write_fault db)) eqn:Hw; cbn.
    + destruct (ok (commit_fault db)) eqn:Hc; cbn; [done|by rewrite Hc].
    + by rewrite Hw.
Qed.

Lemma deleteKeyValuePair_unwritable db key :
  write_fault db <> OK \/ commit_fault db <> OK ->
  deleteKeyValuePair db key = AssertionFailed.
Proof.
  intros Hf.
  destruct (deleteKeyValuePair db key) as [[st d]| |] eqn:Hs; [|done|].
  - exfalso. revert Hs.
    unfold deleteKeyValuePair, makeTransaction, BeginTransaction, Delete, buffer,
      Commit.
    cbn. destruct (ok (write_fault db)) eqn:Hw; cbn.
    + destruct (ok (commit_fault db)) eqn:Hc; cbn.
      * apply ok_true in Hw, Hc. by destruct Hf.
      * by rewrite Hc.
    + by rewrite Hw.
  - revert Hs.
    unfold deleteKeyValuePair, makeTransaction, BeginTransaction, Delete, buffer,
      Commit.
    cbn. destruct (ok (write_fault db)) eqn:Hw; cbn.
    + destruct (ok (commit_fault db)) eqn:Hc; cbn; [done|by rewrite Hc].
    + by rewrite Hw.
Qed.

(** X11: while the engine refuses a buffered write or a commit,
    [saveKeyValuePair] and [deleteKeyValuePair] stop at a failed assertion,
    so they never hand a failure status back; [saveValue] then never
    returns, and [incrementReference] and [deleteValue] return only with
    NotFound. *)
Theorem X11_write_failure_stops_at_assertion (db : TransactionDB) (k : bytes) :
  write_fault db <> OK \/ commit_fault db <> OK ->
  (forall value, saveKeyValuePair db k value = AssertionFailed)
  /\ deleteKeyValuePair db k = AssertionFailed
  /\ (forall v r d, saveValue db k v <> Done (r, d))
  /\ (forall r d, incrementReference db k = Done (r, d) -> save_status r = NotFound)
  /\ (forall r d, deleteValue db k = Done (r, d) -> del_status r = NotFound).
Proof.
  intros Hf.
  assert (Hsave := fun value => saveKeyValuePair_unwritable db k value Hf).
  assert (Hdel := deleteKeyValuePair_unwritable db k Hf).
  assert (Hwrc : forall n v, saveValueWithRefCount db n k v = AssertionFailed).
  { intros n v. unfold saveValueWithRefCount. by rewrite Hsave. }
  split; [exact Hsave|]. split; [exact Hdel|]. split; [|split].
  - intros v r d. unfold saveValue.
    destruct (getValue db k) as [g| |]; cbn [exec_bind]; [|done..].
    destruct (ok (status g)); cbn [exec_bind]; [|by rewrite Hwrc].
    destruct (assert _); cbn [exec_bind]; [by rewrite Hwrc|done..].
  - intros r d. unfold incrementReference.
    destruct (getValue_cases db k) as [Hg|[Hg|(c & v & _ & Hg)]];
      rewrite Hg; cbn [exec_bind status ok]; [done| |by rewrite Hwrc].
    by intros [= <- _].
  - intros r d. unfold deleteValue.
    destruct (getValue_cases db k) as [Hg|[Hg|(c & v & _ & Hg)]];
      rewrite Hg; cbn [exec_bind status reference_count stored_value ok]; [done| |].
    + by intros [= <- _].
    + destruct (c <? 2); [by rewrite Hdel|by rewrite Hwrc].
Qed.

Lemma X11_write_failure_stops_at_assertion_witness :
  (forall value, saveKeyValuePair (db_abc_unwritable 2) key_abc value = AssertionFailed)
  /\ deleteKeyValuePair (db_abc_unwritable 2) key_abc = AssertionFailed
  /\ (forall v r d, saveValue (db_abc_unwritable 2) key_abc v <> Done (r, d))
  /\ (forall r d, incrementReference (db_abc_unwritable 2) key_abc = Done (r, d) ->
        save_status r = NotFound)
  /\ (forall r d, deleteValue (db_abc_unwritable 2) key_abc = Done (r, d) ->
        del_status r = NotFound).
Proof.
  apply X11_write_failure_stops_at_assertion. right. discriminate.
Defined.

(** ** How the calls compose *)

(** X12: on a key whose record reads back with value [v], [saveValue] with
    that same value does exactly what [incrementReference] does: same
    result, same store (the detour of the count through [int] changes
    nothing). *)
Theorem X12_saveValue_same_value_is_increment (db : TransactionDB)
    (k v : bytes) (c : Z) :
  getValue db k = Done {| reference_count := c; status := OK; stored_value := v |} ->
  saveValue db k v = incrementReference db k.
Proof.
  intros Hg. unfold saveValue, incrementReference. rewrite Hg. cbn.
  rewrite bool_decide_eq_true_2 by done. cbn.
  by rewrite u32_int_of_u32 by apply u32_range.
Qed.

Lemma X12_saveValue_same_value_is_increment_witness :
  saveValue (db_abc 2147483647) key_abc value_123
  = incrementReference (db_abc 2147483647) key_abc.
Proof.
  apply (X12_saveValue_same_value_is_increment _ key_abc value_123 2147483647).
  reflexivity.
Defined.

Lemma parse_inv_serialize s c v :
  parseCountAndValue s = Done (c, v) -> s <> [] -> serializeCountAndValue c v = s.
Proof.
  intros Hp Hne.
  destruct (decide (length s < 4)%nat) as [Hlt|Hge].
  - unfold parseCountAndValue in Hp. rewrite decide_False in Hp by done.
    by rewrite decide_True in Hp by done.
  - destruct (parse_then_serialize s) as (c' & v' & Hp' & _ & _ & Hs); [lia|].
    rewrite Hp in Hp'. by injection Hp' as <- <-.
Qed.

Lemma deleteValue_above_one db k c v :
  write_fault db = OK -> commit_fault db = OK ->
  getValue db k = Done {| reference_count := c; status := OK; stored_value := v |} ->
  1 < c ->
  deleteValue db k
  = Done ({| del_reference_count := c - 1; del_status := OK |},
          with_table db (<[k := serializeCountAndValue (c - 1) v]> (table db))).
Proof.
  intros Hw Hc Hg Hgt.
  destruct (getValue_ok_inv _ _ _ _ Hg) as (_ & s & _ & Hp).
  apply parse_count_range in Hp.
  assert (Hu : u32 (c - 1) = c - 1) by (apply Z.mod_small; lia).
  unfold deleteValue. rewrite Hg. cbn.
  destruct (Z.ltb_spec c 2) as [|_]; [lia|].
  rewrite saveValueWithRefCount_healthy by done. cbn. by rewrite Hu.
Qed.

Lemma deleteValue_last db k c v :
  write_fault db = OK -> commit_fault db = OK ->
  getValue db k = Done {| reference_count := c; status := OK; stored_value := v |} ->
  c <= 1 ->
  deleteValue db k
  = Done ({| del_reference_count := 0; del_status := OK |},
          with_table db (delete k (table db))).
Proof.
  intros Hw Hc Hg Hle.
  unfold deleteValue. rewrite Hg. cbn [exec_bind status reference_count ok].
  destruct (Z.ltb_spec c 2) as [_|]; [|lia].
  by rewrite deleteKeyValuePair_healthy.
Qed.

(** X13: on a key whose record has a count from 1 to [2^32 - 2],
    [incrementReference] followed by [deleteValue] reports that count
    again and gives back the very store it started from. *)
Theorem X13_increment_then_delete_restores (db : TransactionDB) (k v : bytes)
    (c : Z) :
  write_fault db = OK -> commit_fault db = OK ->
  getValue db k = Done {| reference_count := c; status := OK; stored_value := v |} ->
  1 <= c < 2 ^ 32 - 1 ->
  (r <-- incrementReference db k ;; deleteValue r.2 k)
  = Done ({| del_reference_count := c; del_status := OK |}, db).
Proof.
  intros Hw Hc Hg Hrange.
  destruct (getValue_ok_inv _ _ _ _ Hg) as (Hgf & s & Hk & Hp).
  assert (Hs : serializeCountAndValue c v = s).
  { apply parse_inv_serialize; [done|]. intros ->. injection Hp as <- _. lia. }
  assert (Hu : u32 (c + 1) = c + 1) by (apply Z.mod_small; lia).
  rewrite (incrementReference_present db k c v Hw Hc Hg), Hu. cbn [exec_bind snd].
  rewrite (deleteValue_above_one _ k (c + 1) v); [|done|done| |lia].
  - rewrite with_table_twice. cbn [table with_table].
    rewrite insert_insert_eq.
    replace (c + 1 - 1) with c by lia.
    by rewrite Hs, (insert_id (table db) k s Hk), with_table_id.
  - rewrite (getValue_after_put db k (c + 1) v)
      by (done || apply lookup_insert_eq).
    by rewrite Hu.
Qed.

Lemma X13_increment_then_delete_restores_witness :
  (r <-- incrementReference (db_abc 1) key_abc ;; deleteValue r.2 key_abc)
  = Done ({| del_reference_count := 1; del_status := OK |}, db_abc 1).
Proof.
  apply (X13_increment_then_delete_restores (db_abc 1) key_abc value_123 1);
    [reflexivity | reflexivity | reflexivity | lia].
Defined.

(** X14: on a healthy store, [saveValue] on a key without a record followed
    by [deleteValue] reports count 0 and gives back the very store it
    started from. *)
Theorem X14_save_then_delete_restores (db : TransactionDB) (k v : bytes) :
  healthy db -> table db !! k = None ->
  (r <-- saveValue db k v ;; deleteValue r.2 k)
  = Done ({| del_reference_count := 0; del_status := OK |}, db).
Proof.
  intros (Hg & Hw & Hc) Hk.
  rewrite saveValue_absent by done. cbn [exec_bind snd].
  rewrite (deleteValue_last _ k 1 v); [|done|done| |lia].
  - rewrite with_table_twice. cbn [table with_table].
    by rewrite delete_insert_id, with_table_id.
  - by rewrite (getValue_after_put db k 1 v) by (done || apply lookup_insert_eq).
Qed.

Lemma X14_save_then_delete_restores_witness :
  (r <-- saveValue fresh_db key_abc value_123 ;; deleteValue r.2 key_abc)
  = Done ({| del_reference_count := 0; del_status := OK |}, fresh_db).
Proof.
  apply X14_save_then_delete_restores; [by repeat split | reflexivity].
Defined.

(** ** Stores written by these calls alone *)

Lemma run_op_well_formed db op db' :
  records_well_formed (table db) -> run_op db op = Done db' ->
  records_well_formed (table db').
Proof.
  intros Ht Hrun.
  destruct (run_op_table db op db' Hrun) as [->|[(n & v & Hn & ->)| ->]]; [done| |];
    intros k s; cbn [table with_table].
  - rewrite lookup_insert. case_decide; [|apply Ht].
    intros [= <-]. by exists n, v.
  - rewrite lookup_delete. case_decide; [done|apply Ht].
Qed.

Lemma reachable_well_formed db :
  reachable any_call db -> records_well_formed (table db).
Proof.
  induction 1 as [db Hempty|db op db' _ IH _ Hrun].
  - rewrite Hempty. intros k s Hk. by rewrite lookup_empty in Hk.
  - by apply (run_op_well_formed db op db').
Qed.

Lemma getValue_well_formed db k :
  records_well_formed (table db) -> exists r, getValue db k = Done r.
Proof.
  intros Ht. destruct (ok (get_fault db)) eqn:Hf.
  - apply ok_true in Hf. destruct (table db !! k) as [s|] eqn:Hk.
    + destruct (Ht k s Hk) as (c & v & -> & _).
      rewrite (getValue_present db k _ Hf Hk), parse_serialize. by eexists.
    + rewrite getValue_absent by done. by eexists.
  - apply ok_false_iff in Hf. rewrite getValue_unreadable by done. by eexists.
Qed.

Lemma run_op_defined db op :
  (exists r, getValue db (key_of op) = Done r) ->
  run_op db op <> UndefinedBehaviour.
Proof.
  intros [g Hg].
  assert (Hput : forall key value, saveKeyValuePair db key value <> UndefinedBehaviour).
  { intros key value.
    unfold saveKeyValuePair, makeTransaction, BeginTransaction, Put, buffer, Commit.
    cbn. destruct (ok (write_fault db)) eqn:Hw; cbn; [|by rewrite Hw].
    destruct (ok (commit_fault db)) eqn:Hc; cbn; [done|by rewrite Hc]. }
  assert (Hdel : forall key, deleteKeyValuePair db key <> UndefinedBehaviour).
  { intros key.
    unfold deleteKeyValuePair, makeTransaction, BeginTransaction, Delete, buffer,
      Commit.
    cbn. destruct (ok (write_fault db)) eqn:Hw; cbn; [|by rewrite Hw].
    destruct (ok (commit_fault db)) eqn:Hc; cbn; [done|by rewrite Hc]. }
  assert (Hwrc : forall n key value d,
             (r <-- saveValueWithRefCount db n key value ;; Done (d r))
             <> (UndefinedBehaviour : exec TransactionDB)).
  { intros n key value d. unfold saveValueWithRefCount.
    specialize (Hput key (serializeCountAndValue n value)).
    destruct (saveKeyValuePair _ _ _) as [[st d']| |]; cbn; [|done..].
    by destruct (ok st). }
  destruct op as [k v|k|k]; cbn [run_op key_of] in *.
  - unfold saveValue. rewrite Hg. cbn [exec_bind].
    destruct (ok (status g)); cbn [exec_bind]; [|apply (Hwrc _ _ _ snd)].
    destruct (bool_decide _); cbn [assert exec_bind]; [apply (Hwrc _ _ _ snd)|done].
  - unfold incrementReference. rewrite Hg. cbn [exec_bind].
    destruct (ok (status g)); [apply (Hwrc _ _ _ snd)|done].
  - unfold deleteValue. rewrite Hg. cbn [exec_bind].
    destruct (ok (status g)); [|done].
    destruct (reference_count g <? 2).
    + specialize (Hdel k). by destruct (deleteKeyValuePair db k) as [[st d]| |].
    + specialize (Hput k (serializeCountAndValue (u32 (reference_count g - 1))
                           (stored_value g))).
      unfold saveValueWithRefCount.
      destruct (saveKeyValuePair _ _ _) as [[st d']| |]; cbn; [|done..].
      by destruct (ok st).
Qed.

(** X15: in every state that calls of [saveValue], [incrementReference] and
    [deleteValue] lead to from a freshly opened store, each record is a
    32-bit count in front of a value; so [getValue] returns for every key,
    and no call runs into the undefined parse of a 1 to 3 byte string. *)
Theorem X15_reachable_records_well_formed (db : TransactionDB) :
  reachable any_call db ->
  records_well_formed (table db)
  /\ (forall k, exists r, getValue db k = Done r)
  /\ (forall op, run_op db op <> UndefinedBehaviour).
Proof.
  intros Hreach. apply reachable_well_formed in Hreach as Ht.
  split; [exact Ht|]. split.
  - intros k. by apply getValue_well_formed.
  - intros op. by apply run_op_defined, getValue_well_formed.
Qed.

Lemma X15_reachable_records_well_formed_witness :
  records_well_formed (table (db_abc 1))
  /\ (forall k, exists r, getValue (db_abc 1) k = Done r)
  /\ (forall op, run_op (db_abc 1) op <> UndefinedBehaviour).
Proof.
  apply X15_reachable_records_well_formed.
  apply (reachable_step any_call fresh_db (OpSave key_abc value_123) (db_abc 1)).
  - apply reachable_open. reflexivity.
  - exact I.
  - reflexivity.
Defined.

(** ** As many deletes as saves *)

Lemma delete_times_succ n db k :
  delete_times (N.succ n) db k
  = (db' <-- delete_times n db k ;; run_op db' (OpDelete k)).
Proof. unfold delete_times. by rewrite N.iter_succ. Qed.

Lemma delete_times_above db k v t c m :
  healthy db -> Z.of_N m < c < 2 ^ 32 ->
  delete_times m (with_table db (<[k := serializeCountAndValue c v]> t)) k
  = Done (with_table db (<[k := serializeCountAndValue (c - Z.of_N m) v]> t)).
Proof.
  intros (Hg & Hw & Hc). induction m as [|m IH] using N.peano_ind; intros Hm.
  - cbn. by rewrite Z.sub_0_r.
  - rewrite delete_times_succ, IH by lia. cbn [exec_bind run_op].
    assert (Hu : u32 (c - Z.of_N m) = c - Z.of_N m) by (apply Z.mod_small; lia).
    rewrite (deleteValue_above_one _ k (c - Z.of_N m) v); [|done|done| |lia].
    + cbn [exec_bind snd]. rewrite with_table_twice. cbn [table with_table].
      rewrite insert_insert_eq. do 4 f_equal. lia.
    + rewrite (getValue_after_put db k (c - Z.of_N m) v)
        by (done || apply lookup_insert_eq).
      by rewrite Hu.
Qed.

(** X16: on a healthy store and a key without a record, [n] calls of
    [saveValue] with one value followed by [n] calls of [deleteValue], for
    [n] from 1 to [2^32 - 1], all return and give back the very store they
    started from. *)
Theorem X16_saves_then_as_many_deletes (db : TransactionDB) (k v : bytes) (n : N) :
  healthy db -> table db !! k = None ->
  (0 < n)%N -> Z.of_N n <= 2 ^ 32 - 1 ->
  (db' <-- save_times n db k v ;; delete_times n db' k) = Done db.
Proof.
  intros Hh Hk Hn Hmax. rewrite save_times_spec by done. cbn [exec_bind].
  assert (Hu : u32 (Z.of_N n) = Z.of_N n) by (apply Z.mod_small; lia).
  rewrite Hu, <- (N.succ_pred_pos n Hn) at 1.
  rewrite delete_times_succ, delete_times_above by (done || lia).
  cbn [exec_bind run_op]. destruct Hh as (Hg & Hw & Hc).
  rewrite (deleteValue_last _ k (Z.of_N n - Z.of_N (N.pred n)) v); [|done|done| |lia].
  - cbn [exec_bind snd]. rewrite with_table_twice. cbn [table with_table].
    by rewrite delete_insert_id, with_table_id.
  - rewrite (getValue_after_put db k (Z.of_N n - Z.of_N (N.pred n)) v)
      by (done || apply lookup_insert_eq).
    unfold u32. by rewrite Z.mod_small by lia.
Qed.

Lemma X16_saves_then_as_many_deletes_witness :
  (db' <-- save_times 3 fresh_db key_abc value_123 ;; delete_times 3 db' key_abc)
  = Done fresh_db.
Proof.
  apply X16_saves_then_as_many_deletes;
    [by repeat split | reflexivity | reflexivity | by cbv].
Defined.

(** ** Calls on different keys *)

Lemma saveKeyValuePair_frame db t key value :
  saveKeyValuePair (with_table db t) key value
  = match saveKeyValuePair db key value with
    | Done (st, _) => Done (st, with_table db (<[key := value]> t))
    | AssertionFailed => AssertionFailed
    | UndefinedBehaviour => UndefinedBehaviour
    end.
Proof.
  unfold saveKeyValuePair, makeTransaction, BeginTransaction, Put, buffer, Commit.
  cbn. destruct (ok (write_fault db)) eqn:Hw; cbn; [|by rewrite !Hw].
  destruct (ok (commit_fault db)) eqn:Hc; cbn; [done|by rewrite !Hc].
Qed.

Lemma deleteKeyValuePair_frame db t key :
  deleteKeyValuePair (with_table db t) key
  = match deleteKeyValuePair db key with
    | Done (st, _) => Done (st, with_table db (delete key t))
    | AssertionFailed => AssertionFailed
    | UndefinedBehaviour => UndefinedBehaviour
    end.
Proof.
  unfold deleteKeyValuePair, makeTransaction, BeginTransaction, Delete, buffer,
    Commit.
  cbn. destruct (ok (write_fault db)) eqn:Hw; cbn; [|by rewrite !Hw].
  destruct (ok (commit_fault db)) eqn:Hc; cbn; [done|by rewrite !Hc].
Qed.

Lemma partial_alter_insert_lookup (m t : gmap bytes bytes) k s :
  partial_alter (fun _ => <[k := s]> m !! k) k t = <[k := s]> t.
Proof. by rewrite lookup_insert_eq. Qed.

Lemma partial_alter_delete_lookup (m t : gmap bytes bytes) k :
  partial_alter (fun _ => delete k m !! k) k t = delete k t.
Proof. by rewrite lookup_delete_eq. Qed.

Lemma saveValueWithRefCount_frame db t n k v :
  (r <-- saveValueWithRefCount (with_table db t) n k v ;; Done r.2)
  = match (r <-- saveValueWithRefCount db n k v ;; Done r.2) with
    | Done d => Done (with_table db (partial_alter (fun _ => table d !! k) k t))
    | AssertionFailed => AssertionFailed
    | UndefinedBehaviour => UndefinedBehaviour
    end.
Proof.
  unfold saveValueWithRefCount. rewrite saveKeyValuePair_frame.
  destruct (saveKeyValuePair db k (serializeCountAndValue n v))
    as [[st d]| |] eqn:Hs; cbn; [|done..].
  apply saveKeyValuePair_inv in Hs as [-> ->]. cbn.
  by rewrite partial_alter_insert_lookup.
Qed.

(** A call decides on the record of its own key alone: on a store that
    differs elsewhere it makes the same change, or fails the same way. *)
Lemma run_op_frame db op t :
  t !! key_of op = table db !! key_of op ->
  run_op (with_table db t) op
  = match run_op db op with
    | Done d =>
        Done (with_table db
                (partial_alter (fun _ => table d !! key_of op) (key_of op) t))
    | AssertionFailed => AssertionFailed
    | UndefinedBehaviour => UndefinedBehaviour
    end.
Proof.
  intros Ht.
  assert (Hsame : partial_alter (fun _ => table db !! key_of op) (key_of op) t = t).
  { rewrite <- Ht. apply partial_alter_self. }
  destruct op as [k v|k|k]; cbn [run_op key_of] in *.
  - unfold saveValue. rewrite (getValue_with_table_other db k t Ht).
    destruct (getValue db k) as [g| |]; cbn [exec_bind]; [|done..].
    destruct (ok (status g)); cbn [exec_bind];
      [|apply saveValueWithRefCount_frame].
    destruct (bool_decide _); cbn [assert exec_bind];
      [apply saveValueWithRefCount_frame|done].
  - unfold incrementReference. rewrite (getValue_with_table_other db k t Ht).
    destruct (getValue db k) as [g| |]; cbn [exec_bind]; [|done..].
    destruct (ok (status g)); [apply saveValueWithRefCount_frame|].
    cbn. by rewrite Hsame.
  - unfold deleteValue. rewrite (getValue_with_table_other db k t Ht).
    destruct (getValue db k) as [g| |]; cbn [exec_bind]; [|done..].
    destruct (ok (status g)); [|cbn; by rewrite Hsame].
    destruct (reference_count g <? 2).
    + rewrite deleteKeyValuePair_frame.
      destruct (deleteKeyValuePair db k) as [[st d]| |] eqn:Hd; cbn; [|done..].
      apply deleteKeyValuePair_inv in Hd as [-> ->]. cbn.
      by rewrite partial_alter_delete_lookup.
    + pose proof (saveValueWithRefCount_frame db t
                    (u32 (reference_count g - 1)) k (stored_value g)) as Hf.
      destruct (saveValueWithRefCount (with_table db t) _ _ _) as [[r1 d1]| |],
        (saveValueWithRefCount db _ _ _) as [[r2 d2]| |]; cbn in Hf |- *; done.
Qed.

Lemma run_op_as_partial_alter db op d :
  run_op db op = Done d ->
  d = with_table db
        (partial_alter (fun _ => table d !! key_of op) (key_of op) (table db)).
Proof.
  intros Hrun. pose proof (run_op_frame db op (table db) eq_refl) as Hf.
  rewrite with_table_id, Hrun in Hf. by injection Hf.
Qed.

(** X17: two calls on different keys can be swapped: when one order
    returns, the other order returns too and ends in the same store. *)
Theorem X17_calls_on_different_keys_commute (db d12 : TransactionDB)
    (op1 op2 : Op) :
  key_of op1 <> key_of op2 ->
  (d <-- run_op db op1 ;; run_op d op2) = Done d12 ->
  (d <-- run_op db op2 ;; run_op d op1) = Done d12.
Proof.
  intros Hne Hseq.
  destruct (run_op db op1) as [d1| |] eqn:H1; cbn [exec_bind] in Hseq; [|done..].
  pose proof (run_op_as_partial_alter db op1 d1 H1) as Hd1.
  set (g1 := fun _ : option bytes => table d1 !! key_of op1) in *.
  rewrite Hd1 in Hseq. rewrite run_op_frame in Hseq
    by (cbn [table with_table]; by apply lookup_partial_alter_ne).
  destruct (run_op db op2) as [d2| |] eqn:H2; [|done..].
  injection Hseq as <-. cbn [exec_bind].
  pose proof (run_op_as_partial_alter db op2 d2 H2) as Hd2.
  set (g2 := fun _ : option bytes => table d2 !! key_of op2) in *.
  rewrite Hd2 at 1. rewrite run_op_frame
    by (cbn [table with_table]; by apply lookup_partial_alter_ne).
  rewrite H1. fold g1. do 2 f_equal. by apply partial_alter_partial_alter_ne.
Qed.

Lemma X17_calls_on_different_keys_commute_witness :
  (d <-- run_op (db_abc 2) (OpSave value_123 key_abc) ;;
   run_op d (OpDelete key_abc))
  = Done (with_table fresh_db
            {[ key_abc := serializeCountAndValue 1 value_123;
               value_123 := serializeCountAndValue 1 key_abc ]}).
Proof.
  apply (X17_calls_on_different_keys_commute (db_abc 2) _
           (OpDelete key_abc) (OpSave value_123 key_abc)).
  - discriminate.
  - reflexivity.
Defined.

(** ** Results of [getValue], and records this layer did not write *)

(** X18: a result that [getValue] returns has status OK or NotFound, never
    another status of the engine; with NotFound the count is 0 and the
    value empty; with OK the count fits 32 bits and count and value are
    the parse of the string stored under the key. *)
Theorem X18_getValue_result_shape (db : TransactionDB) (k : bytes)
    (r : GetResults) :
  getValue db k = Done r ->
  (status r = NotFound /\ reference_count r = 0 /\ stored_value r = [])
  \/ (status r = OK /\ 0 <= reference_count r < 2 ^ 32 /\
      get_fault db = OK /\
      exists s, table db !! k = Some s /\
                parseCountAndValue s = Done (reference_count r, stored_value r)).
Proof.
  intros Hr.
  destruct (getValue_cases db k) as [Hg|[Hg|(c & v & Hc & Hg)]];
    rewrite Hg in Hr; [done| |]; injection Hr as <-; cbn.
  - by left.
  - right. apply getValue_ok_inv in Hg as (Hgf & s & Hk & Hp).
    split; [done|]. split; [done|]. split; [done|]. by exists s.
Qed.

Lemma X18_getValue_result_shape_witness :
  (status {| reference_count := 0; status := NotFound; stored_value := [] |}
   = NotFound /\
   reference_count {| reference_count := 0; status := NotFound; stored_value := [] |}
   = 0 /\
   stored_value {| reference_count := 0; status := NotFound; stored_value := [] |}
   = [])
  \/ (status {| reference_count := 0; status := NotFound; stored_value := [] |}
      = OK /\
      0 <= reference_count
             {| reference_count := 0; status := NotFound; stored_value := [] |}
        < 2 ^ 32 /\
      get_fault (db_abc_unreadable 5) = OK /\
      exists s, table (db_abc_unreadable 5) !! key_abc = Some s /\
                parseCountAndValue s
                = Done (reference_count
                          {| reference_count := 0; status := NotFound;
                             stored_value := [] |},
                        stored_value
                          {| reference_count := 0; status := NotFound;
                             stored_value := [] |})).
Proof.
  apply (X18_getValue_result_shape (db_abc_unreadable 5) key_abc).
  reflexivity.
Defined.

(** X19: a key under which the engine holds the empty string reads with
    status OK, count 0 and an empty value, not as NotFound. So
    [incrementReference] writes a record with count 1 and an empty value,
    [saveValue] with a value that is not empty stops at the assertion, and
    [deleteValue] removes the key. *)
Theorem X19_empty_string_record (db : TransactionDB) (k : bytes) :
  get_fault db = OK -> table db !! k = Some [] ->
  getValue db k = Done {| reference_count := 0; status := OK; stored_value := [] |}
  /\ (forall v, v <> [] -> saveValue db k v = AssertionFailed)
  /\ (write_fault db = OK -> commit_fault db = OK ->
      incrementReference db k
      = Done ({| save_reference_count := 1; save_status := OK; storage_key := k |},
              with_table db (<[k := [x01; x00; x00; x00]]> (table db)))
      /\ deleteValue db k
         = Done ({| del_reference_count := 0; del_status := OK |},
                 with_table db (delete k (table db)))).
Proof.
  intros Hg Hk.
  assert (Hget : getValue db k
                 = Done {| reference_count := 0; status := OK; stored_value := [] |})
    by by rewrite (getValue_present db k [] Hg Hk).
  split; [exact Hget|]. split.
  - intros v Hv. unfold saveValue. rewrite Hget. cbn.
    by rewrite bool_decide_eq_false_2.
  - intros Hw Hc. split.
    + by rewrite (incrementReference_present db k 0 [] Hw Hc Hget).
    + by apply (deleteValue_last db k 0 []).
Qed.

Lemma X19_empty_string_record_witness :
  getValue (db_abc_raw []) key_abc
  = Done {| reference_count := 0; status := OK; stored_value := [] |}
  /\ (forall v, v <> [] -> saveValue (db_abc_raw []) key_abc v = AssertionFailed)
  /\ (write_fault (db_abc_raw []) = OK -> commit_fault (db_abc_raw []) = OK ->
      incrementReference (db_abc_raw []) key_abc
      = Done ({| save_reference_count := 1; save_status := OK;
                 storage_key := key_abc |},
              with_table (db_abc_raw [])
                (<[key_abc := [x01; x00; x00; x00]]> (table (db_abc_raw []))))
      /\ deleteValue (db_abc_raw []) key_abc
         = Done ({| del_reference_count := 0; del_status := OK |},
                 with_table (db_abc_raw [])
                   (delete key_abc (table (db_abc_raw []))))).
Proof. apply X19_empty_string_record; reflexivity. Defined.

(** X20: a key under which the engine holds a string of 1 to 3 bytes has
    no defined result: [getValue] runs into the undefined parse, and so do
    [saveValue], [incrementReference] and [deleteValue] on that key, before
    they write anything. *)
Theorem X20_short_record_is_undefined (db : TransactionDB) (k s : bytes) :
  get_fault db = OK -> table db !! k = Some s ->
  (0 < length s < 4)%nat ->
  getValue db k = UndefinedBehaviour
  /\ (forall v, saveValue db k v = UndefinedBehaviour)
  /\ incrementReference db k = UndefinedBehaviour
  /\ deleteValue db k = UndefinedBehaviour.
Proof.
  intros Hg Hk Hlen.
  assert (Hp : parseCountAndValue s = UndefinedBehaviour).
  { unfold parseCountAndValue.
    rewrite decide_False by (intros ->; cbn in Hlen; lia).
    by rewrite decide_True by lia. }
  assert (Hget : getValue db k = UndefinedBehaviour)
    by by rewrite (getValue_present db k s Hg Hk), Hp.
  unfold saveValue, incrementReference, deleteValue. by rewrite Hget.
Qed.

Lemma X20_short_record_is_undefined_witness :
  getValue (db_abc_raw [x01; x00]) key_abc = UndefinedBehaviour
  /\ (forall v, saveValue (db_abc_raw [x01; x00]) key_abc v = UndefinedBehaviour)
  /\ incrementReference (db_abc_raw [x01; x00]) key_abc = UndefinedBehaviour
  /\ deleteValue (db_abc_raw [x01; x00]) key_abc = UndefinedBehaviour.
Proof.
  apply (X20_short_record_is_undefined _ key_abc [x01; x00]);
    [reflexivity | reflexivity | cbn; lia].
Defined.
